(** * MCP23008 I2C GPIO expander driver: embedding and verified properties

    The driver (devices/MCP23008/MCP23008.hpp and its implementation file) is
    embedded as programs over the effects it performs: mutex operations and
    I2C transactions.  Programs are then run against an arbitrary transport,
    against a model of the MCP23008 chip, and by an interleaving scheduler. *)

From Stdlib Require Import ZArith List Ascii String Bool Lia.
Import ListNotations.
Local Open Scope string_scope.
Local Open Scope list_scope.
Local Open Scope Z_scope.

(** ** Machine integers *)

(** Conversion to [uint8_t]: keep the low eight bits. *)
Definition u8 (x : Z) : Z := Z.land x 255.

Definition is_u8 (x : Z) : Prop := 0 <= x < 256.

(** ** Constants of the implementation file (anonymous namespace) *)

Definition MCP23008_ADDRESS : Z := 0x40.

Definition IODIR   : Z := 0x00.
Definition IPOL    : Z := 0x01.
Definition GPINTEN : Z := 0x02.
Definition DEFVAL  : Z := 0x03.
Definition INTCON  : Z := 0x04.
Definition IOCON   : Z := 0x05.
Definition GPPU    : Z := 0x06.
Definition INTF    : Z := 0x07.
Definition INTCAP  : Z := 0x08.
Definition GPIO    : Z := 0x09.
Definition OLAT    : Z := 0x0A.

(** ** Enumerations of the class *)

Inductive Frequency : Type :=
| Frequency_100KHz
| Frequency_400KHz
| Frequency_1700KHz.

Definition Frequency_value (f : Frequency) : Z :=
  match f with
  | Frequency_100KHz => 100000
  | Frequency_400KHz => 400000
  | Frequency_1700KHz => 1700000
  end.

Inductive Pin : Type :=
| Pin_GP0 | Pin_GP1 | Pin_GP2 | Pin_GP3
| Pin_GP4 | Pin_GP5 | Pin_GP6 | Pin_GP7
| Pin_All.

Definition Pin_value (p : Pin) : Z :=
  match p with
  | Pin_GP0 => 0x01
  | Pin_GP1 => 0x02
  | Pin_GP2 => 0x04
  | Pin_GP3 => 0x08
  | Pin_GP4 => 0x10
  | Pin_GP5 => 0x20
  | Pin_GP6 => 0x40
  | Pin_GP7 => 0x80
  | Pin_All => 0xFF
  end.

(** The platform's [PinMode] enumeration is declared outside the driver.  The
    driver names [PullNone], [PullUp] and [PullDown]; [OpenDrain] stands for
    the further, target-specific modes, none of which the driver tests for. *)
Inductive PinMode : Type :=
| PullNone
| PullUp
| PullDown
| OpenDrain.

Definition PinMode_eqb (a b : PinMode) : bool :=
  match a, b with
  | PullNone, PullNone | PullUp, PullUp
  | PullDown, PullDown | OpenDrain, OpenDrain => true
  | _, _ => false
  end.

(** Bus line identifiers; the driver only hands them to the I2C object. *)
Definition PinName : Type := Z.

(** ** Programs over the driver's effects *)

(** [I2CWrite a d k] is [i2c.write(a, d, length d)]; the continuation receives
    the returned status (0 on acknowledge).  [I2CRead a n k] is
    [i2c.read(a, buf, n)]; the continuation receives the status and the bytes
    the bus delivered.  [Fatal] is a call that does not return. *)
Inductive Prog (A : Type) : Type :=
| Ret (a : A)
| Fatal (msg : string)
| MutexLock (k : Prog A)
| MutexUnlock (k : Prog A)
| I2CFrequency (hz : Z) (k : Prog A)
| I2CWrite (address : Z) (data : list Z) (k : Z -> Prog A)
| I2CRead (address : Z) (len : nat) (k : Z -> list Z -> Prog A).

Arguments Ret {A} a.
Arguments Fatal {A} msg.
Arguments MutexLock {A} k.
Arguments MutexUnlock {A} k.
Arguments I2CFrequency {A} hz k.
Arguments I2CWrite {A} address data k.
Arguments I2CRead {A} address len k.

Fixpoint bind {A B : Type} (p : Prog A) (f : A -> Prog B) : Prog B :=
  match p with
  | Ret a => f a
  | Fatal msg => Fatal msg
  | MutexLock k => MutexLock (bind k f)
  | MutexUnlock k => MutexUnlock (bind k f)
  | I2CFrequency hz k => I2CFrequency hz (bind k f)
  | I2CWrite a d k => I2CWrite a d (fun st => bind (k st) f)
  | I2CRead a n k => I2CRead a n (fun st rx => bind (k st rx) f)
  end.

Declare Scope prog_scope.
Delimit Scope prog_scope with prog.
Notation "x <- c1 ;; c2" := (bind c1 (fun x => c2))
  (at level 100, c1 at next level, right associativity) : prog_scope.
Notation "c1 ;; c2" := (bind c1 (fun _ => c2))
  (at level 100, right associativity) : prog_scope.
Local Open Scope prog_scope.

Definition mutex_lock : Prog unit := MutexLock (Ret tt).
Definition mutex_unlock : Prog unit := MutexUnlock (Ret tt).
Definition i2c_frequency (hz : Z) : Prog unit := I2CFrequency hz (Ret tt).

(** [i2c.write(address, data, length)]: the first [length] bytes are sent. *)
Definition i2c_write (address : Z) (data : list Z) (length : nat) : Prog Z :=
  I2CWrite address (firstn length data) (fun st => Ret st).

(** The buffer after a read of [length] bytes: delivered bytes overwrite the
    front of the buffer, the rest keeps its content. *)
Definition received (rx : list Z) (length : nat) (buf : list Z) : list Z :=
  firstn length rx ++ skipn (List.length (firstn length rx)) buf.

(** [i2c.read(address, data, length)]: status and the updated buffer. *)
Definition i2c_read (address : Z) (data : list Z) (length : nat)
  : Prog (Z * list Z) :=
  I2CRead address length (fun st rx => Ret (st, received rx length data)).

(** Modelled from the spec: [error] of mbed_error.h is not among the sources;
    the specification makes every such failure fatal: the operation that met
    the fault does not complete and nothing is retried. *)
Definition error {A : Type} (msg : string) : Prog A := Fatal msg.

(** Modelled from the spec: [MBED_ASSERT] of mbed_assert.h is not among the
    sources; the specification makes a violated invariant a fatal,
    assertion-style error. *)
Definition MBED_ASSERT (cond : bool) : Prog unit :=
  if cond then Ret tt else Fatal "MBED_ASSERT".

(** A conditional whose branch does not return. *)
Definition when_ (c : bool) (p : Prog unit) : Prog unit :=
  if c then p else Ret tt.

(** ** The MCP23008 class *)

(** The object's own data; the bus handle and the mutex live in the world the
    programs run in. *)
Record MCP23008 : Type := { i2c_address : Z }.

Definition read_register (self : MCP23008) (reg : Z) : Prog Z :=
  mutex_lock ;;
  let data := [u8 reg] in
  st <- i2c_write (i2c_address self) data 1 ;;
  when_ (negb (0 =? st))
        (error "MCP23008::read_register: Missing ACK for write") ;;
  r <- i2c_read (i2c_address self) data 1 ;;
  let '(st', data') := r in
  when_ (negb (0 =? st'))
        (error "MCP23008:read_register: Missing ACK for read") ;;
  mutex_unlock ;;
  Ret (u8 (nth 0 data' 0)).

Definition write_register (self : MCP23008) (reg value : Z) : Prog unit :=
  let data := [u8 reg; u8 value] in
  st <- i2c_write (i2c_address self) data 2 ;;
  when_ (negb (0 =? st))
        (error "MCP23008::write_register: Missing ACK for write").

(** The loop [for (uint8_t reg = IPOL; reg <= OLAT; reg++)]; [fuel] bounds the
    number of iterations, a [uint8_t] counter has 256 values. *)
Fixpoint reset_loop (self : MCP23008) (fuel : nat) (reg : Z) : Prog unit :=
  match fuel with
  | O => Fatal "reset: loop bound"
  | S fuel' =>
      if reg <=? OLAT
      then write_register self reg 0 ;; reset_loop self fuel' (u8 (reg + 1))
      else Ret tt
  end.

Definition reset (self : MCP23008) : Prog unit :=
  write_register self IODIR 0xFF ;;
  reset_loop self 256 IPOL.

(** The constructor.  Member initialisers run first, so the address is
    computed (and truncated to [uint8_t]) before the range check. *)
Definition MCP23008_new (sda scl : PinName) (address : Z) (freq : Frequency)
  : Prog MCP23008 :=
  let address := u8 address in
  let self :=
    {| i2c_address := u8 (Z.lor MCP23008_ADDRESS (Z.shiftl address 1)) |} in
  when_ (7 <? address)
        (error "MCP23008::MCP23008: address is out of range, must be <= 7") ;;
  i2c_frequency (Frequency_value freq) ;;
  reset self ;;
  Ret self.

Definition set_input_pins (self : MCP23008) (pins : Z) : Prog unit :=
  value <- read_register self IODIR ;;
  write_register self IODIR (Z.lor value (u8 pins)).

Definition set_output_pins (self : MCP23008) (pins : Z) : Prog unit :=
  value <- read_register self IODIR ;;
  write_register self IODIR (Z.land value (Z.lnot (u8 pins))).

Definition write_outputs (self : MCP23008) (values : Z) : Prog unit :=
  write_register self GPIO values.

Definition read_outputs (self : MCP23008) : Prog Z :=
  read_register self OLAT.

Definition read_inputs (self : MCP23008) : Prog Z :=
  read_register self GPIO.

Definition set_input_polarity (self : MCP23008) (values : Z) : Prog unit :=
  write_register self IPOL values.

Definition get_input_polarity (self : MCP23008) : Prog Z :=
  read_register self IPOL.

Definition set_pullups (self : MCP23008) (values : Z) : Prog unit :=
  write_register self GPPU values.

Definition get_pullups (self : MCP23008) : Prog Z :=
  read_register self GPPU.

Definition interrupt_on_changes (self : MCP23008) (pins : Z) : Prog unit :=
  value <- read_register self INTCON ;;
  let value := u8 (Z.land value (Z.lnot (u8 pins))) in
  write_register self INTCON value ;;
  value <- read_register self GPINTEN ;;
  let value := u8 (Z.lor value (u8 pins)) in
  write_register self GPINTEN value.

Definition disable_interrupts (self : MCP23008) (pins : Z) : Prog unit :=
  value <- read_register self GPINTEN ;;
  let value := u8 (Z.land value (Z.lnot (u8 pins))) in
  write_register self GPINTEN value.

(** The two reference parameters are returned as a pair [(pin, values)]. *)
Definition acknowledge_interrupt (self : MCP23008) : Prog (Z * Z) :=
  pin <- read_register self INTF ;;
  values <- read_register self INTCAP ;;
  Ret (pin, values).

(** ** Pin handles *)

(** The header declares the members of [ExpandedIO] as [internal_read],
    [internal_mode], ...; the implementation file defines their bodies under
    the names [read], [mode], [write], [output] and [input].  Both names
    denote the same member here. *)
Module ExpandedIO.

Record t : Type := make { _parent : MCP23008; _pin : Pin }.

Definition read (self : t) : Prog Z :=
  v <- read_inputs (_parent self) ;;
  Ret (Z.land v (Pin_value (_pin self))).

Definition mode (self : t) (pull : PinMode) : Prog unit :=
  MBED_ASSERT (negb (PinMode_eqb pull PullDown)) ;;
  mutex_lock ;;
  pullups <- get_pullups (_parent self) ;;
  let pullups :=
    if PinMode_eqb pull PullNone
    then u8 (Z.land pullups (Z.lnot (Pin_value (_pin self))))
    else if PinMode_eqb pull PullUp
         then u8 (Z.lor pullups (Pin_value (_pin self)))
         else pullups in
  set_pullups (_parent self) pullups ;;
  mutex_unlock.

Definition write (self : t) (value : Z) : Prog unit :=
  outputs <- read_outputs (_parent self) ;;
  if negb (value =? 0)
  then write_outputs (_parent self) (Z.lor outputs (Pin_value (_pin self)))
  else write_outputs (_parent self)
                     (Z.land outputs (Z.lnot (Pin_value (_pin self)))).

Definition output (self : t) : Prog unit :=
  set_output_pins (_parent self) (Pin_value (_pin self)).

Definition input (self : t) : Prog unit :=
  set_input_pins (_parent self) (Pin_value (_pin self)).

Definition internal_read := read.
Definition internal_mode := mode.
Definition internal_write := write.
Definition internal_output := output.
Definition internal_input := input.

End ExpandedIO.

Module ExpandedInput.
Definition new (parent : MCP23008) (pin : Pin) : Prog ExpandedIO.t :=
  let self := ExpandedIO.make parent pin in
  ExpandedIO.internal_input self ;; Ret self.
Definition read (self : ExpandedIO.t) : Prog Z :=
  ExpandedIO.internal_read self.
Definition mode (self : ExpandedIO.t) (pull : PinMode) : Prog unit :=
  ExpandedIO.internal_mode self pull.
Definition is_connected (self : ExpandedIO.t) : Z := 1.
End ExpandedInput.

Module ExpandedOutput.
Definition new (parent : MCP23008) (pin : Pin) : Prog ExpandedIO.t :=
  let self := ExpandedIO.make parent pin in
  ExpandedIO.internal_output self ;; Ret self.
Definition write (self : ExpandedIO.t) (value : Z) : Prog unit :=
  ExpandedIO.internal_write self value.
Definition read (self : ExpandedIO.t) : Prog Z :=
  ExpandedIO.internal_read self.
Definition is_connected (self : ExpandedIO.t) : Z := 1.
End ExpandedOutput.

Module ExpandedInputOutput.
Definition write (self : ExpandedIO.t) (value : Z) : Prog unit :=
  ExpandedIO.internal_write self value.
Definition read (self : ExpandedIO.t) : Prog Z :=
  ExpandedIO.internal_read self.
Definition output (self : ExpandedIO.t) : Prog unit :=
  ExpandedIO.internal_output self.
Definition input (self : ExpandedIO.t) : Prog unit :=
  ExpandedIO.internal_input self.
Definition mode (self : ExpandedIO.t) (pull : PinMode) : Prog unit :=
  ExpandedIO.internal_mode self pull.
Definition new (parent : MCP23008) (pin : Pin) : Prog ExpandedIO.t :=
  let self := ExpandedIO.make parent pin in
  output self ;; Ret self.
Definition is_connected (self : ExpandedIO.t) : Z := 1.
End ExpandedInputOutput.

Definition as_input (self : MCP23008) (pin : Pin) : Prog ExpandedIO.t :=
  ExpandedInput.new self pin.

Definition as_output (self : MCP23008) (pin : Pin) : Prog ExpandedIO.t :=
  ExpandedOutput.new self pin.

Definition as_input_output (self : MCP23008) (pin : Pin) : Prog ExpandedIO.t :=
  ExpandedInputOutput.new self pin.

(** ** Running a program against a transport *)

(** The I2C transport the driver requires: a settable clock frequency, and
    addressed write and read transactions that return 0 when acknowledged. *)
Record Transport (S : Type) : Type := {
  bus_frequency : Z -> S -> S;
  bus_write : Z -> list Z -> S -> Z * S;
  bus_read : Z -> nat -> S -> Z * list Z * S
}.

Arguments bus_frequency {S} _ _ _.
Arguments bus_write {S} _ _ _ _.
Arguments bus_read {S} _ _ _ _.

(** What a run leaves behind, in program order. *)
Inductive Event : Type :=
| EvLock
| EvUnlock
| EvFrequency (hz : Z)
| EvWrite (address : Z) (data : list Z) (status : Z)
| EvRead (address : Z) (len : nat) (status : Z) (rx : list Z).

Inductive Outcome (A : Type) : Type :=
| Done (a : A)
| Halted (msg : string).

Arguments Done {A} a.
Arguments Halted {A} msg.

Section Exec.

Context {S : Type} (T : Transport S).

Fixpoint exec {A : Type} (p : Prog A) (s : S)
  : Outcome A * S * list Event :=
  match p with
  | Ret a => (Done a, s, [])
  | Fatal msg => (Halted msg, s, [])
  | MutexLock k =>
      let '(o, s', l) := exec k s in (o, s', EvLock :: l)
  | MutexUnlock k =>
      let '(o, s', l) := exec k s in (o, s', EvUnlock :: l)
  | I2CFrequency hz k =>
      let '(o, s', l) := exec k (bus_frequency T hz s) in
      (o, s', EvFrequency hz :: l)
  | I2CWrite a d k =>
      let '(st, s1) := bus_write T a d s in
      let '(o, s', l) := exec (k st) s1 in
      (o, s', EvWrite a d st :: l)
  | I2CRead a n k =>
      let '(st, rx, s1) := bus_read T a n s in
      let '(o, s', l) := exec (k st rx) s1 in
      (o, s', EvRead a n st rx :: l)
  end.

Definition trace {A : Type} (r : Outcome A * S * list Event) : list Event :=
  snd r.

End Exec.

(** The bus transactions of a trace. *)
Definition is_transaction (e : Event) : bool :=
  match e with
  | EvWrite _ _ _ | EvRead _ _ _ _ => true
  | _ => false
  end.

(** [guarded depth l]: every bus transaction of [l] happens while the mutex is
    held, [depth] being the number of locks held when [l] starts. *)
Fixpoint guarded (depth : nat) (l : list Event) : bool :=
  match l with
  | [] => true
  | EvLock :: l' => guarded (S depth) l'
  | EvUnlock :: l' => guarded (Nat.pred depth) l'
  | e :: l' =>
      (negb (is_transaction e) || negb (Nat.eqb depth 0)) && guarded depth l'
  end.

(** ** A model of the MCP23008 chip behind the bus *)

(** The device at the other end of the bus is not part of the driver, yet what
    the driver's operations leave in its registers depends on how it answers.
    The model follows the register semantics the header's comments rely on
    (read_outputs: the last values written to the output pins, from OLAT;
    read_inputs: the current state of the input pins): a write to GPIO goes
    to the output latch, a read of GPIO shows the port, INTF and INTCAP are
    read-only.  Interrupt generation is left out: INTF and INTCAP never
    change by themselves.

    The state: the ten stored registers, the register address pointer, the
    address strap (pins A2..A0), and the circuit around the chip: [ext] is
    the level the circuit puts on each pin, [load] marks the pins on which the
    circuit overrides the chip's output driver (a short or an excessive
    load). *)
Record Chip : Type := {
  strap : Z;
  pointer : Z;
  iodir : Z;
  ipol : Z;
  gpinten : Z;
  defval : Z;
  intcon : Z;
  iocon : Z;
  gppu : Z;
  intf : Z;
  intcap : Z;
  olat : Z;
  ext : Z;
  load : Z
}.

Definition set_pointer (c : Chip) (r : Z) : Chip :=
  {| strap := strap c; pointer := r; iodir := iodir c; ipol := ipol c;
     gpinten := gpinten c; defval := defval c; intcon := intcon c;
     iocon := iocon c; gppu := gppu c; intf := intf c; intcap := intcap c;
     olat := olat c; ext := ext c; load := load c |}.

(** The level on the eight port pins: an output pin that is not overridden
    shows its latch bit, every other pin shows the level of the circuit. *)
Definition pin_levels (c : Chip) : Z :=
  let undriven := Z.lor (iodir c) (load c) in
  u8 (Z.lor (Z.land (olat c) (Z.lnot undriven)) (Z.land (ext c) undriven)).

(** Reading the GPIO register shows the port, inverted where IPOL is set. *)
Definition gpio_value (c : Chip) : Z := u8 (Z.lxor (pin_levels c) (ipol c)).

Definition chip_get (c : Chip) (r : Z) : Z :=
  match r with
  | 0x00 => iodir c
  | 0x01 => ipol c
  | 0x02 => gpinten c
  | 0x03 => defval c
  | 0x04 => intcon c
  | 0x05 => iocon c
  | 0x06 => gppu c
  | 0x07 => intf c
  | 0x08 => intcap c
  | 0x09 => gpio_value c
  | 0x0A => olat c
  | _ => 0
  end.

(** A register write.  Writing GPIO modifies the output latch; INTF and
    INTCAP are read-only and ignore writes. *)
Definition chip_put (c : Chip) (r v : Z) : Chip :=
  let pick a old := if r =? a then v else old in
  {| strap := strap c;
     pointer := pointer c;
     iodir := pick IODIR (iodir c);
     ipol := pick IPOL (ipol c);
     gpinten := pick GPINTEN (gpinten c);
     defval := pick DEFVAL (defval c);
     intcon := pick INTCON (intcon c);
     iocon := pick IOCON (iocon c);
     gppu := pick GPPU (gppu c);
     intf := intf c;
     intcap := intcap c;
     olat := if (r =? GPIO) || (r =? OLAT) then v else olat c;
     ext := ext c;
     load := load c |}.

(** The address pointer after a data byte: it advances (rolling over after the
    last register) unless IOCON.SEQOP (bit 5) disables sequential operation. *)
Definition advance (c : Chip) : Chip :=
  set_pointer c
    (if Z.testbit (iocon c) 5 then pointer c
     else if pointer c <? OLAT then pointer c + 1 else 0).

Definition chip_address (c : Chip) : Z :=
  Z.lor MCP23008_ADDRESS (Z.shiftl (strap c) 1).

(** The chip answers its own address; the low bit is the read/write flag. *)
Definition responds (c : Chip) (address : Z) : bool :=
  Z.land address 254 =? chip_address c.

Fixpoint chip_store (c : Chip) (bytes : list Z) : Chip :=
  match bytes with
  | [] => c
  | v :: bytes' => chip_store (advance (chip_put c (pointer c) v)) bytes'
  end.

Fixpoint chip_load (c : Chip) (n : nat) : list Z * Chip :=
  match n with
  | O => ([], c)
  | S n' =>
      let v := chip_get c (pointer c) in
      let '(vs, c') := chip_load (advance c) n' in
      (v :: vs, c')
  end.

(** A write transaction: the first byte selects the register, the following
    bytes are stored.  A read transaction delivers registers starting at the
    address pointer.  A chip that is not addressed does not acknowledge. *)
Definition chip_write (address : Z) (data : list Z) (c : Chip) : Z * Chip :=
  if responds c address then
    match data with
    | [] => (0, c)
    | r :: bytes => (0, chip_store (set_pointer c r) bytes)
    end
  else (1, c).

Definition chip_read (address : Z) (n : nat) (c : Chip) : Z * list Z * Chip :=
  if responds c address then
    let '(vs, c') := chip_load c n in (0, vs, c')
  else (1, [], c).

Definition chip_bus : Transport Chip :=
  {| bus_frequency := fun _ c => c;
     bus_write := chip_write;
     bus_read := chip_read |}.

(** All stored registers and the circuit levels are bytes, the strap is a
    three-bit value. *)
Definition byteb (x : Z) : bool := (0 <=? x) && (x <? 256).

Definition chip_ok (c : Chip) : bool :=
  (0 <=? strap c) && (strap c <=? 7) &&
  forallb byteb [iodir c; ipol c; gpinten c; defval c; intcon c; iocon c;
                 gppu c; intf c; intcap c; olat c; ext c; load c].

(** The chip as it leaves power-on reset, in a given circuit. *)
Definition power_on (a e l : Z) : Chip :=
  {| strap := a; pointer := 0; iodir := 0xFF; ipol := 0; gpinten := 0;
     defval := 0; intcon := 0; iocon := 0; gppu := 0; intf := 0; intcap := 0;
     olat := 0; ext := e; load := l |}.

(** ** Threads sharing one chip and one mutex *)

(** The mutex is recursive: its owner may lock it again ([mode] locks it and
    then calls [get_pullups], whose register read locks it a second time). *)
Record Mutex : Type := { owner : option nat; depth : nat }.

Definition unlocked : Mutex := {| owner := None; depth := 0 |}.

Record World : Type := { chip : Chip; mutex : Mutex; halted : bool }.

Definition boot (c : Chip) : World :=
  {| chip := c; mutex := unlocked; halted := false |}.

(** One atomic step of thread [i], whose remaining program is [p]: a mutex
    operation or one bus transaction.  [None]: the thread cannot move (it has
    finished, it waits for the mutex, or the system has halted). *)
Definition step (i : nat) (p : Prog unit) (w : World)
  : option (Prog unit * World) :=
  if halted w then None else
  match p with
  | Ret _ => None
  | Fatal msg =>
      Some (Ret tt, {| chip := chip w; mutex := mutex w; halted := true |})
  | MutexLock k =>
      match owner (mutex w) with
      | None =>
          Some (k, {| chip := chip w;
                      mutex := {| owner := Some i; depth := 1 |};
                      halted := false |})
      | Some j =>
          if Nat.eqb i j
          then Some (k, {| chip := chip w;
                           mutex := {| owner := Some i;
                                       depth := S (depth (mutex w)) |};
                           halted := false |})
          else None
      end
  | MutexUnlock k =>
      match owner (mutex w) with
      | Some j =>
          if Nat.eqb i j
          then Some (k, {| chip := chip w;
                           mutex := match depth (mutex w) with
                                    | S (S d) =>
                                        {| owner := Some i; depth := S d |}
                                    | _ => unlocked
                                    end;
                           halted := false |})
          else None
      | None => None
      end
  | I2CFrequency hz k => Some (k, w)
  | I2CWrite a d k =>
      let '(st, c') := chip_write a d (chip w) in
      Some (k st, {| chip := c'; mutex := mutex w; halted := false |})
  | I2CRead a n k =>
      let '(st, rx, c') := chip_read a n (chip w) in
      Some (k st rx, {| chip := c'; mutex := mutex w; halted := false |})
  end.

Fixpoint replace_nth {A : Type} (i : nat) (x : A) (l : list A) : list A :=
  match l, i with
  | [], _ => []
  | _ :: l', O => x :: l'
  | y :: l', S i' => y :: replace_nth i' x l'
  end.

(** Run the threads of [pool] in the order given by the schedule: each entry
    names the thread that takes the next step.  [None]: the schedule asks a
    thread to move that cannot. *)
Fixpoint run_schedule (sched : list nat) (pool : list (Prog unit)) (w : World)
  : option (list (Prog unit) * World) :=
  match sched with
  | [] => Some (pool, w)
  | i :: sched' =>
      match nth_error pool i with
      | None => None
      | Some p =>
          match step i p w with
          | None => None
          | Some (p', w') => run_schedule sched' (replace_nth i p' pool) w'
          end
      end
  end.

Definition finished (p : Prog unit) : bool :=
  match p with
  | Ret _ => true
  | _ => false
  end.

(** The worlds in which all threads have finished, over every schedule of at
    most [fuel] steps. *)
Fixpoint final_worlds (fuel : nat) (pool : list (Prog unit)) (w : World)
  : list World :=
  if forallb finished pool then [w] else
  match fuel with
  | O => []
  | S fuel' =>
      flat_map
        (fun i =>
           match nth_error pool i with
           | None => []
           | Some p =>
               match step i p w with
               | None => []
               | Some (p', w') => final_worlds fuel' (replace_nth i p' pool) w'
               end
           end)
        (seq 0 (List.length pool))
  end.

(** Outcome and final state of a run, without the trace. *)
Definition run {S A : Type} (T : Transport S) (p : Prog A) (s : S)
  : Outcome A * S :=
  fst (exec T p s).

(** The chip after a register read and after a register write. *)
Definition after_read (c : Chip) (r : Z) : Chip :=
  advance (set_pointer c r).

Definition after_write (c : Chip) (r v : Z) : Chip :=
  advance (chip_put (set_pointer c r) r v).

(** The registers the reset loop walks through, [count] of them from [reg]. *)
Fixpoint span (reg : Z) (count : nat) : list Z :=
  match count with
  | O => []
  | S count' => reg :: span (reg + 1) count'
  end.

Definition cleared : list Z := span IPOL 10.

(** The chip after the writes of [reset], and the transactions of [reset]. *)
Definition after_reset (c : Chip) : Chip :=
  fold_left (fun c r => after_write c r 0) cleared (after_write c IODIR 0xFF).

Definition reset_trace (address : Z) : list Event :=
  EvWrite address [IODIR; 0xFF] 0 ::
  map (fun r => EvWrite address [r; 0] 0) cleared.

(** What reading register [r] through the driver returns on chip [c]. *)
Definition reads_back (self : MCP23008) (c : Chip) (r v : Z) : Prop :=
  fst (run chip_bus (read_register self r) c) = Done v.

(** The reset invariant as the specification words it: after construction
    the direction register reads all-input and every register from polarity
    through output-latch reads zero. *)
Definition reset_clears_registers (c : Chip) (s : Z) (freq : Frequency)
  : Prop :=
  exists self c',
    run chip_bus (MCP23008_new 0 1 s freq) c = (Done self, c')
    /\ reads_back self c' IODIR 0xFF
    /\ forall r, IPOL <= r <= OLAT -> reads_back self c' r 0.

(** The value a handle on [pin] reports for the level last written through
    it: the pin's mask for high, zero for low. *)
Definition commanded (pin : Pin) (value : Z) : Z :=
  if value =? 0 then 0 else Pin_value pin.

(** The output handle's read as the specification words it: it returns the
    value last commanded through [write] on that handle. *)
Definition output_read_returns_commanded
           (c : Chip) (parent : MCP23008) (pin : Pin) (value : Z) : Prop :=
  exists c',
    run chip_bus (h <- as_output parent pin ;;
                  ExpandedOutput.write h value ;;
                  ExpandedOutput.read h) c =
    (Done (commanded pin value), c').

(** Bit position of a single-pin mask. *)
Definition Pin_index (p : Pin) : Z :=
  match p with
  | Pin_GP0 => 0 | Pin_GP1 => 1 | Pin_GP2 => 2 | Pin_GP3 => 3
  | Pin_GP4 => 4 | Pin_GP5 => 5 | Pin_GP6 => 6 | Pin_GP7 => 7
  | Pin_All => 8
  end.

(** ** The public operations as one family *)

(** A call of a public member of [MCP23008] or of a pin handle on [pin]; the
    handle members are named after the handle class's methods. *)
Inductive Call : Type :=
| call_set_input_pins (pins : Z)
| call_set_output_pins (pins : Z)
| call_write_outputs (values : Z)
| call_read_outputs
| call_read_inputs
| call_set_input_polarity (values : Z)
| call_get_input_polarity
| call_set_pullups (values : Z)
| call_get_pullups
| call_interrupt_on_changes (pins : Z)
| call_disable_interrupts (pins : Z)
| call_acknowledge_interrupt
| call_as_input (pin : Pin)
| call_as_output (pin : Pin)
| call_as_input_output (pin : Pin)
| call_read (pin : Pin)
| call_mode (pin : Pin) (pull : PinMode)
| call_write (pin : Pin) (value : Z)
| call_output (pin : Pin)
| call_input (pin : Pin).

(** Drop the result of a program. *)
Definition ignore {A : Type} (p : Prog A) : Prog unit := p ;; Ret tt.

Definition perform (self : MCP23008) (c : Call) : Prog unit :=
  match c with
  | call_set_input_pins pins => set_input_pins self pins
  | call_set_output_pins pins => set_output_pins self pins
  | call_write_outputs values => write_outputs self values
  | call_read_outputs => ignore (read_outputs self)
  | call_read_inputs => ignore (read_inputs self)
  | call_set_input_polarity values => set_input_polarity self values
  | call_get_input_polarity => ignore (get_input_polarity self)
  | call_set_pullups values => set_pullups self values
  | call_get_pullups => ignore (get_pullups self)
  | call_interrupt_on_changes pins => interrupt_on_changes self pins
  | call_disable_interrupts pins => disable_interrupts self pins
  | call_acknowledge_interrupt => ignore (acknowledge_interrupt self)
  | call_as_input pin => ignore (as_input self pin)
  | call_as_output pin => ignore (as_output self pin)
  | call_as_input_output pin => ignore (as_input_output self pin)
  | call_read pin => ignore (ExpandedIO.read (ExpandedIO.make self pin))
  | call_mode pin pull => ExpandedIO.mode (ExpandedIO.make self pin) pull
  | call_write pin value => ExpandedIO.write (ExpandedIO.make self pin) value
  | call_output pin => ExpandedIO.output (ExpandedIO.make self pin)
  | call_input pin => ExpandedIO.input (ExpandedIO.make self pin)
  end.

(** ** Disciplines of a program, read off its structure *)

(** [fail_stop a p]: every transaction of [p] goes to address [a], a write
    carries at most two bytes, a read asks for one, and whenever a transaction
    returns a non-zero status the program is a fatal error at once. *)
Inductive fail_stop {A : Type} (a : Z) : Prog A -> Prop :=
| fs_Ret (x : A) : fail_stop a (Ret x)
| fs_Fatal (msg : string) : fail_stop a (Fatal msg)
| fs_Lock (k : Prog A) : fail_stop a k -> fail_stop a (MutexLock k)
| fs_Unlock (k : Prog A) : fail_stop a k -> fail_stop a (MutexUnlock k)
| fs_Frequency (hz : Z) (k : Prog A) :
    fail_stop a k -> fail_stop a (I2CFrequency hz k)
| fs_Write (d : list Z) (k : Z -> Prog A) :
    (1 <= List.length d <= 2)%nat ->
    Forall is_u8 d ->
    (forall st, st <> 0 -> exists msg, k st = Fatal msg) ->
    fail_stop a (k 0) ->
    fail_stop a (I2CWrite a d k)
| fs_Read (k : Z -> list Z -> Prog A) :
    (forall st rx, st <> 0 -> exists msg, k st rx = Fatal msg) ->
    (forall rx, fail_stop a (k 0 rx)) ->
    fail_stop a (I2CRead a 1 k).

(** [returns_at d e p]: started with the mutex locked [d] times, [p] never
    unlocks a mutex that is not locked and is at depth [e] wherever it
    returns. *)
Inductive returns_at {A : Type} : nat -> nat -> Prog A -> Prop :=
| ra_Ret (d : nat) (x : A) : returns_at d d (Ret x)
| ra_Fatal (d e : nat) (msg : string) : returns_at d e (Fatal msg)
| ra_Lock (d e : nat) (k : Prog A) :
    returns_at (S d) e k -> returns_at d e (MutexLock k)
| ra_Unlock (d e : nat) (k : Prog A) :
    returns_at d e k -> returns_at (S d) e (MutexUnlock k)
| ra_Frequency (d e : nat) (hz : Z) (k : Prog A) :
    returns_at d e k -> returns_at d e (I2CFrequency hz k)
| ra_Write (d e : nat) (a : Z) (data : list Z) (k : Z -> Prog A) :
    (forall st, returns_at d e (k st)) -> returns_at d e (I2CWrite a data k)
| ra_Read (d e : nat) (a : Z) (n : nat) (k : Z -> list Z -> Prog A) :
    (forall st rx, returns_at d e (k st rx)) ->
    returns_at d e (I2CRead a n k).

(** A transaction that was not acknowledged. *)
Definition nack (e : Event) : bool :=
  match e with
  | EvWrite _ _ st => negb (st =? 0)
  | EvRead _ _ st _ => negb (st =? 0)
  | _ => false
  end.

(** A transaction as the driver issues them: to address [a], a write of one or
    two bytes, or a read of one byte. *)
Definition well_addressed (a : Z) (e : Event) : Prop :=
  match e with
  | EvWrite a' d _ =>
      a' = a /\ (1 <= List.length d <= 2)%nat /\ Forall is_u8 d
  | EvRead a' n _ _ => a' = a /\ n = 1%nat
  | _ => True
  end.

(** The lock depth after a trace; [None] when the trace unlocks at depth 0. *)
Fixpoint depth_after (d : nat) (l : list Event) : option nat :=
  match l with
  | [] => Some d
  | EvLock :: l' => depth_after (S d) l'
  | EvUnlock :: l' =>
      match d with
      | O => None
      | S d' => depth_after d' l'
      end
  | _ :: l' => depth_after d l'
  end.

(** The registers and surroundings of two chip states agree; the address
    pointer may differ. *)
Definition same_registers (c c' : Chip) : Prop :=
  strap c' = strap c /\ iodir c' = iodir c /\ ipol c' = ipol c
  /\ gpinten c' = gpinten c /\ defval c' = defval c /\ intcon c' = intcon c
  /\ iocon c' = iocon c /\ gppu c' = gppu c /\ intf c' = intf c
  /\ intcap c' = intcap c /\ olat c' = olat c /\ ext c' = ext c
  /\ load c' = load c.

(** A trace in which a transaction that is not acknowledged is the last event
    and makes the outcome a fatal error. *)
Definition stops_at_nack {A : Type} (o : Outcome A) (l : list Event) : Prop :=
  forall l1 e l2,
    l = l1 ++ e :: l2 -> nack e = true -> l2 = [] /\ exists msg, o = Halted msg.

(** ** PersistentVariable (extensions/PersistentVariable.h) *)

(** C strings are the characters before the terminating NUL.  The memory a
    [char*] points into is the list of cells from that address on; a list
    that is [n] long means cells 0..n-1 have been written. *)
Definition NUL : ascii := Ascii.zero.

Definition strlen (s : list ascii) : nat := List.length s.

(** Store one character at offset [i]. *)
Definition poke (buf : list ascii) (i : nat) (c : ascii) : list ascii :=
  if Nat.ltb i (List.length buf)
  then replace_nth i c buf
  else buf ++ repeat NUL (i - List.length buf) ++ [c].

(** [strcpy(buf + dst, src)]: the characters of [src], then the NUL. *)
Fixpoint strcpy (buf : list ascii) (dst : nat) (src : list ascii)
  : list ascii :=
  match src with
  | [] => poke buf dst NUL
  | ch :: src' => strcpy (poke buf dst ch) (S dst) src'
  end.

(** The C string that starts at the beginning of [buf]. *)
Fixpoint cstring (buf : list ascii) : list ascii :=
  match buf with
  | [] => []
  | ch :: buf' => if Ascii.eqb ch NUL then [] else ch :: cstring buf'
  end.

(** [strrchr(s, c)] for a character [c] other than NUL: the offset of the
    last occurrence of [c] in the string, [None] for a null pointer. *)
Fixpoint strrchr (s : list ascii) (c : ascii) : option nat :=
  match s with
  | [] => None
  | x :: s' =>
      match strrchr s' c with
      | Some i => Some (S i)
      | None => if Ascii.eqb x c then Some O else None
      end
  end.

(** The key-value store interface of kvstore_global_api.h, as calls. *)
Inductive KvProg (A : Type) : Type :=
| KvRet (a : A)
| KvGet (key : list ascii) (size : nat) (k : Z -> list Z -> KvProg A)
| KvSet (key : list ascii) (data : list Z) (flags : Z) (k : Z -> KvProg A)
| KvReset (partition : list ascii) (k : Z -> KvProg A).

Arguments KvRet {A} a.
Arguments KvGet {A} key size k.
Arguments KvSet {A} key data flags k.
Arguments KvReset {A} partition k.

Fixpoint kv_bind {A B : Type} (p : KvProg A) (f : A -> KvProg B) : KvProg B :=
  match p with
  | KvRet a => f a
  | KvGet key n k => KvGet key n (fun e rx => kv_bind (k e rx) f)
  | KvSet key d fl k => KvSet key d fl (fun e => kv_bind (k e) f)
  | KvReset pt k => KvReset pt (fun e => kv_bind (k e) f)
  end.

(** A store behind the interface: each call returns an mbed error code. *)
Record KVStore (S : Type) : Type := {
  store_get : list ascii -> nat -> S -> Z * list Z * S;
  store_set : list ascii -> list Z -> Z -> S -> Z * S;
  store_reset : list ascii -> S -> Z * S
}.

Arguments store_get {S} _ _ _ _.
Arguments store_set {S} _ _ _ _ _.
Arguments store_reset {S} _ _ _.

Inductive KvEvent : Type :=
| EvGet (key : list ascii) (size : nat) (err : Z) (rx : list Z)
| EvSet (key : list ascii) (data : list Z) (flags : Z) (err : Z)
| EvReset (partition : list ascii) (err : Z).

Fixpoint kv_exec {S A : Type} (T : KVStore S) (p : KvProg A) (s : S)
  : A * S * list KvEvent :=
  match p with
  | KvRet a => (a, s, [])
  | KvGet key n k =>
      let '(e, rx, s1) := store_get T key n s in
      let '(a, s', l) := kv_exec T (k e rx) s1 in
      (a, s', EvGet key n e rx :: l)
  | KvSet key d fl k =>
      let '(e, s1) := store_set T key d fl s in
      let '(a, s', l) := kv_exec T (k e) s1 in
      (a, s', EvSet key d fl e :: l)
  | KvReset pt k =>
      let '(e, s1) := store_reset T pt s in
      let '(a, s', l) := kv_exec T (k e) s1 in
      (a, s', EvReset pt e :: l)
  end.

(** A store event that changes the store. *)
Definition kv_writes (e : KvEvent) : bool :=
  match e with
  | EvGet _ _ _ _ => false
  | _ => true
  end.

Definition MBED_SUCCESS : Z := 0.

Module PersistentVariable.

Section Build.

(** Build configuration and constants declared outside the sources:
    whether COMPONENT_FLASHIAP is defined, the configured name
    MBED_CONF_STORAGE_DEFAULT_KV, and the error code
    MBED_ERROR_ITEM_NOT_FOUND. *)
Variable COMPONENT_FLASHIAP : bool.
Variable MBED_CONF_STORAGE_DEFAULT_KV : list ascii.
Variable MBED_ERROR_ITEM_NOT_FOUND : Z.

(** [FORMAT_PARTITION_NAME(s)] is ["/" #s "/"]. *)
Definition KV_STORE_DEFAULT_PARTITION_NAME : list ascii :=
  "/"%char :: MBED_CONF_STORAGE_DEFAULT_KV ++ ["/"%char].

(** The object: [_value] is the object representation of the [T] held, so
    [sizeof(T)] is its length; [_key] is the C string [_key] points to.
    Without COMPONENT_FLASHIAP [_key] is never assigned and never read. *)
Record t : Type := make { _value : list Z; _key : list ascii }.

(** The number of [char]s the constructor allocates for [_key]. *)
Definition key_allocation (key : list ascii) : nat :=
  (strlen key - 1) + strlen KV_STORE_DEFAULT_PARTITION_NAME.

(** The memory at [_key] after the constructor's two [strcpy] calls and the
    replacement of the last slash.  [None]: the behaviour is undefined (an
    empty key makes [&key[1]] point past the string; a null result of
    [strrchr] would be dereferenced). *)
Definition key_memory (key : list ascii) : option (list ascii) :=
  match key with
  | [] => None
  | _ :: rest =>
      let default_partition_len := strlen KV_STORE_DEFAULT_PARTITION_NAME in
      let m := strcpy [] 0 KV_STORE_DEFAULT_PARTITION_NAME in
      let m := strcpy m default_partition_len rest in
      match strrchr (cstring m) "/"%char with
      | Some slash => Some (poke m slash "-"%char)
      | None => None
      end
  end.

Definition new (default_value : list Z) (key : list ascii) : option t :=
  if COMPONENT_FLASHIAP then
    match key_memory key with
    | Some m => Some {| _value := default_value; _key := cstring m |}
    | None => None
    end
  else Some {| _value := default_value; _key := [] |}.

Definition init_kvstore_partition : KvProg Z :=
  KvReset KV_STORE_DEFAULT_PARTITION_NAME (fun e => KvRet e).

Definition set (self : t) (new_value : list Z) : KvProg t :=
  let self := {| _value := new_value; _key := _key self |} in
  if COMPONENT_FLASHIAP then
    KvSet (_key self) (_value self) 0 (fun err =>
    if negb (err =? MBED_SUCCESS) then
      kv_bind init_kvstore_partition (fun e =>
      if negb (e =? MBED_SUCCESS) then KvRet self
      else KvSet (_key self) (_value self) 0 (fun _ => KvRet self))
    else KvRet self)
  else KvRet self.

(** [kv_get(_key, &_value, sizeof(T), &actual_size)]: the bytes delivered
    overwrite the front of [_value]. *)
Definition fetch (self : t) : KvProg (Z * t) :=
  KvGet (_key self) (List.length (_value self)) (fun err rx =>
  KvRet (err, {| _value := received rx (List.length (_value self))
                                    (_value self);
                 _key := _key self |})).

Definition get (self : t) : KvProg (list Z * t) :=
  if COMPONENT_FLASHIAP then
    kv_bind (fetch self) (fun r =>
    let '(err, self) := r in
    if err =? MBED_ERROR_ITEM_NOT_FOUND then
      kv_bind (set self (_value self)) (fun self =>
      kv_bind (fetch self) (fun r' =>
      let '(_, self) := r' in
      KvRet (_value self, self)))
    else KvRet (_value self, self))
  else KvRet (_value self, self).

(** [operator=]: store, then hand back [_value]. *)
Definition assign (self : t) (rhs : list Z) : KvProg (list Z * t) :=
  kv_bind (set self rhs) (fun self => KvRet (_value self, self)).

(** [operator T()]: read, then hand back [_value]. *)
Definition eval (self : t) : KvProg (list Z * t) :=
  kv_bind (get self) (fun r => let '(_, self) := r in
                               KvRet (_value self, self)).

End Build.

End PersistentVariable.

(** A store that keeps what it is given: a list of keys with their data.
    A key that is absent is reported with the code [not_found]. *)
Definition Shelf : Type := list (list ascii * list Z).

Fixpoint shelf_find (key : list ascii) (s : Shelf) : option (list Z) :=
  match s with
  | [] => None
  | (k, d) :: s' =>
      if list_eq_dec ascii_dec k key then Some d else shelf_find key s'
  end.

Definition shelf_store (not_found : Z) : KVStore Shelf :=
  {| store_get := fun key n s =>
       match shelf_find key s with
       | Some d => (MBED_SUCCESS, firstn n d, s)
       | None => (not_found, [], s)
       end;
     store_set := fun key d _ s => (MBED_SUCCESS, (key, d) :: s);
     store_reset := fun _ _ => (MBED_SUCCESS, []) |}.

(** * Properties *)

(** ** Bytes *)

Lemma u8_testbit (x n : Z) :
  0 <= n -> Z.testbit (u8 x) n = Z.testbit x n && (n <? 8).
Proof.
  intros Hn. unfold u8. change 255 with (Z.ones 8).
  rewrite Z.land_spec, Z.testbit_ones_nonneg by lia. reflexivity.
Qed.

Lemma u8_range (x : Z) : is_u8 (u8 x).
Proof.
  unfold is_u8, u8. change 255 with (Z.ones 8).
  rewrite Z.land_ones by lia. apply Z.mod_pos_bound. reflexivity.
Qed.

Lemma u8_small (x : Z) : is_u8 x -> u8 x = x.
Proof.
  unfold is_u8, u8. intros H. change 255 with (Z.ones 8).
  rewrite Z.land_ones by lia. apply Z.mod_small. exact H.
Qed.

Lemma u8_idem (x : Z) : u8 (u8 x) = u8 x.
Proof. apply u8_small, u8_range. Qed.

Lemma byteb_is_u8 (x : Z) : byteb x = true -> is_u8 x.
Proof.
  unfold byteb, is_u8. rewrite andb_true_iff, Z.leb_le, Z.ltb_lt. tauto.
Qed.

(** Equalities between bitwise expressions, decided bit by bit. *)
Ltac bitwise :=
  apply Z.bits_inj'; intros ?n ?Hn;
  repeat first
    [ rewrite Z.land_spec | rewrite Z.lor_spec | rewrite Z.lxor_spec
    | rewrite Z.bits_0 | rewrite u8_testbit by assumption
    | rewrite Z.lnot_spec by assumption ];
  repeat match goal with
         | |- context [Z.testbit ?x ?n] => destruct (Z.testbit x n)
         end;
  try destruct (_ <? 8); reflexivity.

(** Make the byte bound of [x] visible to [bitwise]. *)
Ltac as_byte x H := rewrite <- (u8_small x H).

(** ** Sequencing *)

Lemma exec_bind {S A B : Type} (T : Transport S)
      (p : Prog A) (f : A -> Prog B) (s : S) :
  exec T (bind p f) s =
  match exec T p s with
  | (Done a, s1, l1) =>
      let '(o, s2, l2) := exec T (f a) s1 in (o, s2, l1 ++ l2)
  | (Halted msg, s1, l1) => (Halted msg, s1, l1)
  end.
Proof.
  revert s. induction p as [a|msg|k IH|k IH|hz k IH|a d k IH|a n k IH];
    intros s; simpl.
  - destruct (exec T (f a) s) as [[o s2] l2]. reflexivity.
  - reflexivity.
  - rewrite IH. destruct (exec T k s) as [[[a|msg] s1] l1]; [|reflexivity].
    destruct (exec T (f a) s1) as [[o s2] l2]. reflexivity.
  - rewrite IH. destruct (exec T k s) as [[[a|msg] s1] l1]; [|reflexivity].
    destruct (exec T (f a) s1) as [[o s2] l2]. reflexivity.
  - rewrite IH.
    destruct (exec T k (bus_frequency T hz s)) as [[[a|msg] s1] l1];
      [|reflexivity].
    destruct (exec T (f a) s1) as [[o s2] l2]. reflexivity.
  - destruct (bus_write T a d s) as [st s0]. rewrite IH.
    destruct (exec T (k st) s0) as [[[x|msg] s1] l1]; [|reflexivity].
    destruct (exec T (f x) s1) as [[o s2] l2]. reflexivity.
  - destruct (bus_read T a n s) as [[st rx] s0]. rewrite IH.
    destruct (exec T (k st rx) s0) as [[[x|msg] s1] l1]; [|reflexivity].
    destruct (exec T (f x) s1) as [[o s2] l2]. reflexivity.
Qed.

Lemma run_bind {S A B : Type} (T : Transport S)
      (p : Prog A) (f : A -> Prog B) (s : S) :
  run T (bind p f) s =
  match run T p s with
  | (Done a, s1) => run T (f a) s1
  | (Halted msg, s1) => (Halted msg, s1)
  end.
Proof.
  unfold run. rewrite exec_bind.
  destruct (exec T p s) as [[[a|msg] s1] l1]; [|reflexivity].
  simpl. destruct (exec T (f a) s1) as [[o s2] l2]. reflexivity.
Qed.

(** ** Register transactions on the chip *)

Lemma responds_after_read (c : Chip) (r a : Z) :
  responds (after_read c r) a = responds c a.
Proof. reflexivity. Qed.

Lemma responds_after_write (c : Chip) (r v a : Z) :
  responds (after_write c r v) a = responds c a.
Proof. reflexivity. Qed.

Lemma chip_get_set_pointer (c : Chip) (q r : Z) :
  chip_get (set_pointer c q) r = chip_get c r.
Proof. reflexivity. Qed.

Lemma exec_read_register_chip (self : MCP23008) (reg : Z) (c : Chip) :
  responds c (i2c_address self) = true ->
  exec chip_bus (read_register self reg) c =
  (Done (u8 (chip_get c (u8 reg))), after_read c (u8 reg),
   [EvLock;
    EvWrite (i2c_address self) [u8 reg] 0;
    EvRead (i2c_address self) 1 0 [chip_get c (u8 reg)];
    EvUnlock]).
Proof.
  intros H. unfold read_register. simpl. unfold chip_write.
  rewrite H. simpl. unfold chip_read.
  change (responds (set_pointer c (u8 reg)) (i2c_address self))
    with (responds c (i2c_address self)).
  rewrite H. reflexivity.
Qed.

Lemma exec_write_register_chip (self : MCP23008) (reg value : Z) (c : Chip) :
  responds c (i2c_address self) = true ->
  exec chip_bus (write_register self reg value) c =
  (Done tt, after_write c (u8 reg) (u8 value),
   [EvWrite (i2c_address self) [u8 reg; u8 value] 0]).
Proof.
  intros H. unfold write_register. simpl. unfold chip_write.
  rewrite H. reflexivity.
Qed.

Lemma run_read_register_chip (self : MCP23008) (reg : Z) (c : Chip) :
  responds c (i2c_address self) = true ->
  run chip_bus (read_register self reg) c =
  (Done (u8 (chip_get c (u8 reg))), after_read c (u8 reg)).
Proof.
  intros H. unfold run. rewrite exec_read_register_chip by exact H.
  reflexivity.
Qed.

Lemma run_write_register_chip (self : MCP23008) (reg value : Z) (c : Chip) :
  responds c (i2c_address self) = true ->
  run chip_bus (write_register self reg value) c =
  (Done tt, after_write c (u8 reg) (u8 value)).
Proof.
  intros H. unfold run. rewrite exec_write_register_chip by exact H.
  reflexivity.
Qed.

(** ** The register protocol layer *)

(** C9: [read_register] issues a one-byte write that selects the register,
    then a one-byte read, both on the device address; it halts with a fatal
    error, without any further transaction, as soon as one of the two is not
    acknowledged; otherwise it returns the byte the bus delivered.
    [write_register] issues a single two-byte write (register address, then
    value) and halts with a fatal error when it is not acknowledged.  This
    holds on every transport. *)
Theorem register_transactions {S : Type} (T : Transport S)
        (self : MCP23008) (reg value : Z) (s : S) :
  let a := i2c_address self in
  exec T (read_register self reg) s =
    (let '(st1, s1) := bus_write T a [u8 reg] s in
     if 0 =? st1 then
       let '(st2, rx, s2) := bus_read T a 1 s1 in
       if 0 =? st2 then
         (Done (u8 (hd (u8 reg) rx)), s2,
          [EvLock; EvWrite a [u8 reg] st1; EvRead a 1 st2 rx; EvUnlock])
       else
         (Halted "MCP23008:read_register: Missing ACK for read", s2,
          [EvLock; EvWrite a [u8 reg] st1; EvRead a 1 st2 rx])
     else
       (Halted "MCP23008::read_register: Missing ACK for write", s1,
        [EvLock; EvWrite a [u8 reg] st1]))
  /\
  exec T (write_register self reg value) s =
    (let '(st, s1) := bus_write T a [u8 reg; u8 value] s in
     (if 0 =? st then Done tt
      else Halted "MCP23008::write_register: Missing ACK for write",
      s1, [EvWrite a [u8 reg; u8 value] st])).
Proof.
  intros a. subst a. split.
  - unfold read_register. simpl.
    destruct (bus_write T (i2c_address self) [u8 reg] s) as [st1 s1].
    destruct st1 as [|q|q]; simpl; try reflexivity.
    destruct (bus_read T (i2c_address self) 1 s1) as [[st2 rx] s2].
    destruct st2 as [|q|q]; simpl; try reflexivity.
    destruct rx; reflexivity.
  - unfold write_register. simpl.
    destruct (bus_write T (i2c_address self) [u8 reg; u8 value] s) as [st s1].
    destruct st as [|q|q]; reflexivity.
Qed.

(** ** Construction and reset *)

Lemma exec_reset_loop_chip (self : MCP23008) (count : nat) :
  forall (fuel : nat) (reg : Z) (c : Chip),
    (count < fuel)%nat ->
    reg = OLAT + 1 - Z.of_nat count ->
    0 <= reg ->
    responds c (i2c_address self) = true ->
    exec chip_bus (reset_loop self fuel reg) c =
    (Done tt,
     fold_left (fun c r => after_write c r 0) (span reg count) c,
     map (fun r => EvWrite (i2c_address self) [r; 0] 0) (span reg count)).
Proof.
  unfold OLAT.
  induction count as [|count IH]; intros fuel reg c Hfuel Hreg Hpos Hc;
    (destruct fuel as [|fuel]; [lia|]); cbn [reset_loop].
  - replace (reg <=? OLAT) with false
      by (symmetry; apply Z.leb_gt; unfold OLAT; lia).
    reflexivity.
  - replace (reg <=? OLAT) with true
      by (symmetry; apply Z.leb_le; unfold OLAT; lia).
    assert (Hsmall : is_u8 reg) by (unfold is_u8; lia).
    rewrite exec_bind, exec_write_register_chip by exact Hc.
    rewrite (u8_small reg Hsmall).
    rewrite (u8_small (reg + 1)) by (unfold is_u8; lia).
    rewrite (IH fuel (reg + 1) (after_write c reg (u8 0))); try lia;
      [reflexivity | exact Hc].
Qed.

Lemma exec_reset_chip (self : MCP23008) (c : Chip) :
  responds c (i2c_address self) = true ->
  exec chip_bus (reset self) c =
  (Done tt, after_reset c, reset_trace (i2c_address self)).
Proof.
  intros Hc. unfold reset.
  rewrite exec_bind, exec_write_register_chip by exact Hc.
  rewrite (exec_reset_loop_chip self 10 256 IPOL).
  - reflexivity.
  - lia.
  - reflexivity.
  - unfold IPOL. lia.
  - exact Hc.
Qed.

Lemma strap_address (s : Z) :
  0 <= s <= 7 ->
  u8 (Z.lor MCP23008_ADDRESS (Z.shiftl (u8 s) 1)) =
  Z.lor MCP23008_ADDRESS (Z.shiftl s 1)
  /\ (7 <? u8 s) = false
  /\ Z.land (Z.lor MCP23008_ADDRESS (Z.shiftl s 1)) 254 =
     Z.lor MCP23008_ADDRESS (Z.shiftl s 1).
Proof.
  intros H.
  assert (E : s = 0 \/ s = 1 \/ s = 2 \/ s = 3 \/
              s = 4 \/ s = 5 \/ s = 6 \/ s = 7) by lia.
  repeat (destruct E as [E|E]; [subst s; repeat split|]).
  subst s; repeat split.
Qed.

Lemma exec_new_chip (sda scl : PinName) (s : Z) (freq : Frequency) (c : Chip) :
  0 <= s <= 7 ->
  strap c = s ->
  exec chip_bus (MCP23008_new sda scl s freq) c =
  (Done {| i2c_address := Z.lor MCP23008_ADDRESS (Z.shiftl s 1) |},
   after_reset c,
   EvFrequency (Frequency_value freq) ::
   reset_trace (Z.lor MCP23008_ADDRESS (Z.shiftl s 1))).
Proof.
  intros Hs Hc. destruct (strap_address s Hs) as (Ha & Hle & Hm).
  unfold MCP23008_new. rewrite Ha, Hle. simpl when_.
  cbn [bind i2c_frequency exec chip_bus bus_frequency].
  rewrite exec_bind, exec_reset_chip.
  - reflexivity.
  - unfold responds, chip_address. cbn [i2c_address].
    rewrite Hc, Hm. apply Z.eqb_refl.
Qed.

(** C3: for a strap [s] in [0,7] the constructed object's device address is
    [0x40 | (s << 1)] on whatever transport construction completes, and it
    does complete on a chip strapped to [s]; for a strap above 7 construction
    halts with the configuration error before anything reaches the bus. *)
Theorem construction_address (sda scl : PinName) (s : Z) (freq : Frequency) :
  (0 <= s <= 7 ->
   (forall (S : Type) (T : Transport S) (st st' : S) (self : MCP23008),
       run T (MCP23008_new sda scl s freq) st = (Done self, st') ->
       i2c_address self = Z.lor 0x40 (Z.shiftl s 1)) /\
   (forall c : Chip,
       strap c = s ->
       exists c',
         run chip_bus (MCP23008_new sda scl s freq) c =
         (Done {| i2c_address := Z.lor 0x40 (Z.shiftl s 1) |}, c'))) /\
  (7 < s <= 255 ->
   forall (S : Type) (T : Transport S) (st : S),
     exec T (MCP23008_new sda scl s freq) st =
     (Halted "MCP23008::MCP23008: address is out of range, must be <= 7",
      st, [])).
Proof.
  split.
  - intros Hs. destruct (strap_address s Hs) as (Ha & Hle & _). split.
    + intros S T st st' self. unfold MCP23008_new.
      rewrite Ha, Hle. simpl when_. cbn [bind].
      rewrite run_bind.
      destruct (run T (i2c_frequency (Frequency_value freq)) st)
        as [[[]|msg] s1]; [|discriminate].
      rewrite run_bind.
      match goal with
      | |- context [run T (reset ?d) s1] =>
          destruct (run T (reset d) s1) as [[[]|msg] s2]; [|discriminate]
      end.
      unfold run. simpl. intros E. inversion E. reflexivity.
    + intros c Hc. exists (after_reset c). unfold run.
      rewrite (exec_new_chip sda scl s freq c Hs Hc). reflexivity.
  - intros Hs S T st. unfold MCP23008_new.
    rewrite (u8_small s) by (unfold is_u8; lia).
    replace (7 <? s) with true by (symmetry; apply Z.ltb_lt; lia).
    reflexivity.
Qed.

Lemma construction_address_witness :
  (forall (S : Type) (T : Transport S) (st st' : S) (self : MCP23008),
      run T (MCP23008_new 0 1 3 Frequency_400KHz) st = (Done self, st') ->
      i2c_address self = 0x46) /\
  (forall (S : Type) (T : Transport S) (st : S),
      exec T (MCP23008_new 0 1 8 Frequency_400KHz) st =
      (Halted "MCP23008::MCP23008: address is out of range, must be <= 7",
       st, [])).
Proof.
  split.
  - apply (proj1 (proj1 (construction_address 0 1 3 Frequency_400KHz)
                        ltac:(lia))).
  - apply (proj2 (construction_address 0 1 8 Frequency_400KHz)). lia.
Defined.

(** ** Direction, output and interrupt registers *)

Lemma run_set_input_pins_chip (self : MCP23008) (pins : Z) (c : Chip) :
  responds c (i2c_address self) = true ->
  run chip_bus (set_input_pins self pins) c =
  (Done tt,
   after_write (after_read c IODIR) IODIR
               (u8 (Z.lor (u8 (iodir c)) (u8 pins)))).
Proof.
  intros H. unfold set_input_pins.
  rewrite run_bind, run_read_register_chip by exact H.
  rewrite run_write_register_chip by exact H. reflexivity.
Qed.

Lemma run_set_output_pins_chip (self : MCP23008) (pins : Z) (c : Chip) :
  responds c (i2c_address self) = true ->
  run chip_bus (set_output_pins self pins) c =
  (Done tt,
   after_write (after_read c IODIR) IODIR
               (u8 (Z.land (u8 (iodir c)) (Z.lnot (u8 pins))))).
Proof.
  intros H. unfold set_output_pins.
  rewrite run_bind, run_read_register_chip by exact H.
  rewrite run_write_register_chip by exact H. reflexivity.
Qed.

(** C1: on a chip that answers the device address, [write_outputs v] followed
    by [read_outputs] returns [v] for every byte [v]: the GPIO write lands in
    the output latch, which is what OLAT reads back, whatever levels and loads
    the circuit puts on the pins. *)
Theorem write_outputs_read_outputs (self : MCP23008) (c : Chip) (v : Z) :
  responds c (i2c_address self) = true ->
  is_u8 v ->
  exists c',
    run chip_bus (write_outputs self v ;; read_outputs self) c = (Done v, c')
    /\ olat c' = v /\ ext c' = ext c /\ load c' = load c.
Proof.
  intros H Hv. unfold write_outputs, read_outputs.
  rewrite run_bind, run_write_register_chip by exact H.
  rewrite run_read_register_chip by exact H.
  exists (after_read (after_write c (u8 GPIO) (u8 v)) (u8 OLAT)).
  change (chip_get (after_write c (u8 GPIO) (u8 v)) (u8 OLAT)) with (u8 v).
  change (olat (after_read (after_write c (u8 GPIO) (u8 v)) (u8 OLAT)))
    with (u8 v).
  rewrite u8_idem, (u8_small v Hv).
  split; [reflexivity|]. split; [reflexivity|]. split; reflexivity.
Qed.

Lemma write_outputs_read_outputs_witness :
  exists c',
    run chip_bus (write_outputs {| i2c_address := 0x46 |} 0xFF ;;
                  read_outputs {| i2c_address := 0x46 |})
        (power_on 3 0x00 0xFF) = (Done 0xFF, c')
    /\ olat c' = 0xFF /\ ext c' = 0x00 /\ load c' = 0xFF.
Proof.
  apply (write_outputs_read_outputs {| i2c_address := 0x46 |}
                                    (power_on 3 0x00 0xFF) 0xFF).
  - reflexivity.
  - unfold is_u8. lia.
Defined.

(** C5: direction changes are additive read-modify-write operations.  After
    [set_output_pins a] and [set_output_pins b] the direction bits of [a | b]
    are clear (output) and all other bits are as before; after
    [set_output_pins m] and [set_input_pins m] the direction bits of [m] are
    set (input), the later call winning. *)
Theorem direction_changes_accumulate (self : MCP23008) (c : Chip) :
  responds c (i2c_address self) = true ->
  chip_ok c = true ->
  (forall a b : Z,
      is_u8 a -> is_u8 b ->
      exists c',
        run chip_bus (set_output_pins self a ;; set_output_pins self b) c =
        (Done tt, c')
        /\ Z.land (iodir c') (Z.lor a b) = 0
        /\ iodir c' = Z.land (iodir c) (Z.lnot (Z.lor a b))) /\
  (forall m : Z,
      is_u8 m ->
      exists c',
        run chip_bus (set_output_pins self m ;; set_input_pins self m) c =
        (Done tt, c')
        /\ Z.land (iodir c') m = m
        /\ iodir c' = Z.lor (iodir c) m).
Proof.
  intros H Hok.
  assert (Hd : is_u8 (iodir c)).
  { unfold chip_ok in Hok. simpl in Hok.
    rewrite !andb_true_iff in Hok. apply byteb_is_u8. tauto. }
  split.
  - intros a b Ha Hb.
    rewrite run_bind, run_set_output_pins_chip by exact H.
    rewrite run_set_output_pins_chip by exact H.
    eexists. split; [reflexivity|].
    match goal with
    | |- context [iodir (after_write ?x IODIR ?v)] =>
        change (iodir (after_write x IODIR v)) with v
    end.
    match goal with
    | |- context [iodir (after_write ?x IODIR ?v)] =>
        change (iodir (after_write x IODIR v)) with v
    end.
    as_byte a Ha. as_byte b Hb. as_byte (iodir c) Hd.
    split; bitwise.
  - intros m Hm.
    rewrite run_bind, run_set_output_pins_chip by exact H.
    rewrite run_set_input_pins_chip by exact H.
    eexists. split; [reflexivity|].
    match goal with
    | |- context [iodir (after_write ?x IODIR ?v)] =>
        change (iodir (after_write x IODIR v)) with v
    end.
    match goal with
    | |- context [iodir (after_write ?x IODIR ?v)] =>
        change (iodir (after_write x IODIR v)) with v
    end.
    as_byte m Hm. as_byte (iodir c) Hd.
    split; bitwise.
Qed.

Lemma direction_changes_accumulate_witness :
  (exists c',
      run chip_bus (set_output_pins {| i2c_address := 0x40 |} 0x01 ;;
                    set_output_pins {| i2c_address := 0x40 |} 0x02)
          (power_on 0 0 0) = (Done tt, c')
      /\ Z.land (iodir c') (Z.lor 0x01 0x02) = 0
      /\ iodir c' = Z.land 0xFF (Z.lnot (Z.lor 0x01 0x02))) /\
  (exists c',
      run chip_bus (set_output_pins {| i2c_address := 0x40 |} 0x04 ;;
                    set_input_pins {| i2c_address := 0x40 |} 0x04)
          (power_on 0 0 0) = (Done tt, c')
      /\ Z.land (iodir c') 0x04 = 0x04
      /\ iodir c' = Z.lor 0xFF 0x04).
Proof.
  destruct (direction_changes_accumulate
              {| i2c_address := 0x40 |} (power_on 0 0 0) eq_refl eq_refl)
    as [Hout Hin].
  split.
  - apply (Hout 0x01 0x02); unfold is_u8; lia.
  - apply (Hin 0x04); unfold is_u8; lia.
Defined.

Lemma run_interrupt_on_changes_chip (self : MCP23008) (pins : Z) (c : Chip) :
  responds c (i2c_address self) = true ->
  run chip_bus (interrupt_on_changes self pins) c =
  (Done tt,
   after_write
     (after_read
        (after_write (after_read c INTCON) INTCON
                     (u8 (Z.land (u8 (intcon c)) (Z.lnot (u8 pins)))))
        GPINTEN)
     GPINTEN (u8 (Z.lor (u8 (gpinten c)) (u8 pins)))).
Proof.
  intros H. unfold interrupt_on_changes.
  rewrite run_bind, run_read_register_chip by exact H.
  rewrite run_bind, run_write_register_chip by exact H.
  rewrite run_bind, run_read_register_chip by exact H.
  rewrite run_write_register_chip by exact H.
  rewrite !u8_idem. reflexivity.
Qed.

Lemma run_disable_interrupts_chip (self : MCP23008) (pins : Z) (c : Chip) :
  responds c (i2c_address self) = true ->
  run chip_bus (disable_interrupts self pins) c =
  (Done tt,
   after_write (after_read c GPINTEN) GPINTEN
               (u8 (Z.land (u8 (gpinten c)) (Z.lnot (u8 pins))))).
Proof.
  intros H. unfold disable_interrupts.
  rewrite run_bind, run_read_register_chip by exact H.
  rewrite run_write_register_chip by exact H.
  rewrite !u8_idem. reflexivity.
Qed.

Lemma chip_ok_bytes (c : Chip) :
  chip_ok c = true ->
  0 <= strap c <= 7 /\
  is_u8 (iodir c) /\ is_u8 (ipol c) /\ is_u8 (gpinten c) /\
  is_u8 (defval c) /\ is_u8 (intcon c) /\ is_u8 (iocon c) /\
  is_u8 (gppu c) /\ is_u8 (intf c) /\ is_u8 (intcap c) /\
  is_u8 (olat c) /\ is_u8 (ext c) /\ is_u8 (load c).
Proof.
  unfold chip_ok. simpl forallb.
  rewrite !andb_true_iff, Z.leb_le, Z.leb_le.
  intros H. split; [tauto|].
  repeat (split; [apply byteb_is_u8; tauto|]).
  apply byteb_is_u8; tauto.
Qed.

(** C6: [interrupt_on_changes p] followed by [disable_interrupts p] leaves the
    GPINTEN bits of [p] clear and the INTCON bits of [p] clear; the bits
    outside [p] keep their prior value in both registers. *)
Theorem interrupts_enabled_then_disabled (self : MCP23008) (c : Chip) (p : Z) :
  responds c (i2c_address self) = true ->
  chip_ok c = true ->
  is_u8 p ->
  exists c',
    run chip_bus (interrupt_on_changes self p ;; disable_interrupts self p) c =
    (Done tt, c')
    /\ Z.land (gpinten c') p = 0
    /\ Z.land (intcon c') p = 0
    /\ Z.land (gpinten c') (Z.lnot p) = Z.land (gpinten c) (Z.lnot p)
    /\ Z.land (intcon c') (Z.lnot p) = Z.land (intcon c) (Z.lnot p).
Proof.
  intros H Hok Hp.
  destruct (chip_ok_bytes c Hok)
    as (_ & _ & _ & Hg & _ & Hi & _).
  rewrite run_bind, run_interrupt_on_changes_chip by exact H.
  rewrite run_disable_interrupts_chip by exact H.
  eexists. split; [reflexivity|].
  cbn -[u8 Z.land Z.lor Z.lnot].
  as_byte p Hp. as_byte (gpinten c) Hg. as_byte (intcon c) Hi.
  repeat split; bitwise.
Qed.

Lemma interrupts_enabled_then_disabled_witness :
  exists c',
    run chip_bus (interrupt_on_changes {| i2c_address := 0x42 |} 0x81 ;;
                  disable_interrupts {| i2c_address := 0x42 |} 0x81)
        (power_on 1 0x0F 0) = (Done tt, c')
    /\ Z.land (gpinten c') 0x81 = 0
    /\ Z.land (intcon c') 0x81 = 0
    /\ Z.land (gpinten c') (Z.lnot 0x81) = Z.land 0 (Z.lnot 0x81)
    /\ Z.land (intcon c') (Z.lnot 0x81) = Z.land 0 (Z.lnot 0x81).
Proof.
  apply (interrupts_enabled_then_disabled
           {| i2c_address := 0x42 |} (power_on 1 0x0F 0) 0x81).
  - reflexivity.
  - reflexivity.
  - unfold is_u8. lia.
Defined.

(** ** Pull-up mode of a pin handle *)

Lemma exec_mode_chip (self : ExpandedIO.t) (pull : PinMode) (c : Chip) :
  responds c (i2c_address (ExpandedIO._parent self)) = true ->
  pull <> PullDown ->
  let a := i2c_address (ExpandedIO._parent self) in
  let p := Pin_value (ExpandedIO._pin self) in
  let v := match pull with
           | PullNone => u8 (Z.land (u8 (gppu c)) (Z.lnot p))
           | PullUp => u8 (Z.lor (u8 (gppu c)) p)
           | _ => u8 (gppu c)
           end in
  exec chip_bus (ExpandedIO.mode self pull) c =
  (Done tt,
   after_write (after_read c GPPU) GPPU v,
   [EvLock; EvLock; EvWrite a [GPPU] 0; EvRead a 1 0 [gppu c]; EvUnlock;
    EvWrite a [GPPU; v] 0; EvUnlock]).
Proof.
  intros H Hpull a p v. unfold ExpandedIO.mode.
  replace (negb (PinMode_eqb pull PullDown)) with true
    by (destruct pull; try reflexivity; contradiction).
  cbn [MBED_ASSERT bind mutex_lock exec].
  unfold get_pullups, set_pullups.
  rewrite exec_bind, exec_read_register_chip by exact H.
  rewrite exec_bind, exec_write_register_chip by exact H.
  cbn [mutex_unlock exec app].
  subst a p v. destruct pull; try contradiction; cbn [PinMode_eqb];
    rewrite ?u8_idem; reflexivity.
Qed.

(** C7: on either handle class that offers [mode], a pull-down request halts
    with the assertion failure before the mutex or the bus is touched, on
    every transport, so the pull-up register keeps its value and the request
    is never served as pull-up or pull-none.  A pull-none request clears and
    a pull-up request sets the handle's bit of the pull-up register, leaving
    the other bits as they were, by one register read and one register write
    made while the mutex is held. *)
Theorem mode_pull_requests
        (mode : ExpandedIO.t -> PinMode -> Prog unit) (self : ExpandedIO.t) :
  In mode [ExpandedInput.mode; ExpandedInputOutput.mode] ->
  let a := i2c_address (ExpandedIO._parent self) in
  let p := Pin_value (ExpandedIO._pin self) in
  (forall (S : Type) (T : Transport S) (s : S),
      exec T (mode self PullDown) s = (Halted "MBED_ASSERT", s, [])) /\
  (forall c : Chip,
      responds c a = true ->
      chip_ok c = true ->
      (exists c' l,
          exec chip_bus (mode self PullNone) c = (Done tt, c', l)
          /\ gppu c' = Z.land (gppu c) (Z.lnot p)
          /\ l = [EvLock; EvLock; EvWrite a [GPPU] 0;
                  EvRead a 1 0 [gppu c]; EvUnlock;
                  EvWrite a [GPPU; gppu c'] 0; EvUnlock]
          /\ guarded 0 l = true) /\
      (exists c' l,
          exec chip_bus (mode self PullUp) c = (Done tt, c', l)
          /\ gppu c' = Z.lor (gppu c) p
          /\ l = [EvLock; EvLock; EvWrite a [GPPU] 0;
                  EvRead a 1 0 [gppu c]; EvUnlock;
                  EvWrite a [GPPU; gppu c'] 0; EvUnlock]
          /\ guarded 0 l = true)).
Proof.
  intros Hmode a p.
  assert (E : mode = ExpandedIO.mode).
  { destruct Hmode as [E|[E|[]]]; subst mode; reflexivity. }
  subst mode. split.
  - intros S T s. reflexivity.
  - intros c H Hok.
    destruct (chip_ok_bytes c Hok) as (_ & _ & _ & _ & _ & _ & _ & Hg & _).
    assert (Hp : is_u8 p).
    { subst p. unfold is_u8. destruct (ExpandedIO._pin self); simpl; lia. }
    split.
    + rewrite (exec_mode_chip self PullNone c H) by discriminate.
      fold a p.
      assert (Ev : u8 (Z.land (u8 (gppu c)) (Z.lnot p)) =
                   Z.land (gppu c) (Z.lnot p)).
      { as_byte (gppu c) Hg. as_byte p Hp. bitwise. }
      rewrite Ev. do 2 eexists. split; [reflexivity|].
      split; [reflexivity|]. split; reflexivity.
    + rewrite (exec_mode_chip self PullUp c H) by discriminate.
      fold a p.
      assert (Ev : u8 (Z.lor (u8 (gppu c)) p) = Z.lor (gppu c) p).
      { as_byte (gppu c) Hg. as_byte p Hp. bitwise. }
      rewrite Ev. do 2 eexists. split; [reflexivity|].
      split; [reflexivity|]. split; reflexivity.
Qed.

Lemma mode_pull_requests_witness :
  let self := ExpandedIO.make {| i2c_address := 0x40 |} Pin_GP3 in
  exec chip_bus (ExpandedInput.mode self PullDown) (power_on 0 0 0) =
  (Halted "MBED_ASSERT", power_on 0 0 0, []) /\
  exists c' l,
    exec chip_bus (ExpandedInput.mode self PullUp) (power_on 0 0 0) =
    (Done tt, c', l)
    /\ gppu c' = Z.lor 0 0x08
    /\ l = [EvLock; EvLock; EvWrite 0x40 [GPPU] 0; EvRead 0x40 1 0 [0];
            EvUnlock; EvWrite 0x40 [GPPU; gppu c'] 0; EvUnlock]
    /\ guarded 0 l = true.
Proof.
  intros self.
  destruct (mode_pull_requests ExpandedInput.mode self (or_introl eq_refl))
    as [Hdown Hchip].
  split.
  - apply Hdown.
  - apply (Hchip (power_on 0 0 0)); reflexivity.
Defined.

(** ** Reading through a pin handle *)

Lemma land_pow2 (x k : Z) :
  0 <= k -> Z.land x (2 ^ k) = if Z.testbit x k then 2 ^ k else 0.
Proof.
  intros Hk. apply Z.bits_inj'. intros n Hn.
  rewrite Z.land_spec, Z.pow2_bits_eqb by exact Hk.
  destruct (Z.eqb_spec k n) as [->|Hne].
  - destruct (Z.testbit x n).
    + rewrite Z.pow2_bits_eqb, Z.eqb_refl by exact Hn. reflexivity.
    + rewrite Z.bits_0. reflexivity.
  - rewrite andb_false_r. destruct (Z.testbit x k).
    + rewrite Z.pow2_bits_eqb by exact Hk.
      symmetry. apply Z.eqb_neq. exact Hne.
    + rewrite Z.bits_0. reflexivity.
Qed.

Lemma Pin_value_pow2 (pin : Pin) :
  pin <> Pin_All ->
  0 <= Pin_index pin < 8 /\ Pin_value pin = 2 ^ Pin_index pin.
Proof.
  intros H. destruct pin; try contradiction; simpl; split; try lia;
    reflexivity.
Qed.

Lemma run_read_chip (self : ExpandedIO.t) (c : Chip) :
  responds c (i2c_address (ExpandedIO._parent self)) = true ->
  run chip_bus (ExpandedIO.read self) c =
  (Done (Z.land (gpio_value c) (Pin_value (ExpandedIO._pin self))),
   after_read c GPIO).
Proof.
  intros H. unfold ExpandedIO.read, read_inputs.
  rewrite run_bind, run_read_register_chip by exact H.
  change (chip_get c (u8 GPIO)) with (gpio_value c).
  unfold gpio_value at 1. rewrite u8_idem. reflexivity.
Qed.

(** C10: on every handle class, [read] of a handle bound to a single pin
    returns [read_inputs() & p] for the handle's mask [p]: zero, or the mask
    itself, never a value normalised to 1; so a high level on any pin other
    than GP0 reads as a value above 1.  On a chip that answers, the read
    completes and returns the masked GPIO register. *)
Theorem handle_read_is_masked
        (read : ExpandedIO.t -> Prog Z) (self : ExpandedIO.t) :
  In read [ExpandedInput.read; ExpandedOutput.read;
           ExpandedInputOutput.read] ->
  ExpandedIO._pin self <> Pin_All ->
  let parent := ExpandedIO._parent self in
  let p := Pin_value (ExpandedIO._pin self) in
  (forall (S : Type) (T : Transport S) (s : S),
      run T (read self) s =
      match run T (read_inputs parent) s with
      | (Done x, s') => (Done (Z.land x p), s')
      | (Halted msg, s') => (Halted msg, s')
      end) /\
  (forall (S : Type) (T : Transport S) (s s' : S) (v : Z),
      run T (read self) s = (Done v, s') ->
      (v = 0 \/ v = p) /\
      (v <> 0 -> ExpandedIO._pin self <> Pin_GP0 -> 1 < v)) /\
  (forall c : Chip,
      responds c (i2c_address parent) = true ->
      exists c',
        run chip_bus (read self) c = (Done (Z.land (gpio_value c) p), c')).
Proof.
  intros Hread Hpin parent p.
  assert (E : read = ExpandedIO.read).
  { destruct Hread as [E|[E|[E|[]]]]; subst read; reflexivity. }
  subst read.
  assert (Hrun : forall (S : Type) (T : Transport S) (s : S),
             run T (ExpandedIO.read self) s =
             match run T (read_inputs parent) s with
             | (Done x, s') => (Done (Z.land x p), s')
             | (Halted msg, s') => (Halted msg, s')
             end).
  { intros S T s. unfold ExpandedIO.read. rewrite run_bind.
    fold parent p. destruct (run T (read_inputs parent) s) as [[x|msg] s'];
      reflexivity. }
  split; [exact Hrun|]. split.
  - intros S T s s' v. rewrite Hrun.
    destruct (run T (read_inputs parent) s) as [[x|msg] s1];
      [|discriminate].
    intros Ev. inversion Ev as [[Hv Hs]]. clear Ev Hs.
    destruct (Pin_value_pow2 _ Hpin) as [Hk Hp]. fold p in Hp.
    rewrite Hp, land_pow2 by lia.
    destruct (Z.testbit x (Pin_index (ExpandedIO._pin self))).
    + split; [right; reflexivity|]. intros _ Hgp0.
      destruct (ExpandedIO._pin self); simpl; try lia; contradiction.
    + split; [left; reflexivity|]. intros Hnz. contradiction.
  - intros c H. eexists. apply run_read_chip. exact H.
Qed.

Lemma handle_read_is_masked_witness :
  let self := ExpandedIO.make {| i2c_address := 0x40 |} Pin_GP7 in
  exists c',
    run chip_bus (ExpandedInput.read self) (power_on 0 0xFF 0) =
    (Done (Z.land (gpio_value (power_on 0 0xFF 0)) 0x80), c').
Proof.
  intros self.
  apply (proj2 (proj2 (handle_read_is_masked
                         ExpandedInput.read self (or_introl eq_refl)
                         ltac:(discriminate)))).
  reflexivity.
Defined.

(** A handle bound to [Pin_All] is outside this: its read returns the whole
    port, which need be neither zero nor the mask. *)
Example read_of_all_pins_handle :
  fst (run chip_bus
           (ExpandedIO.read
              (ExpandedIO.make {| i2c_address := 0x40 |} Pin_All))
           (power_on 0 0x05 0)) = Done 0x05.
Proof. reflexivity. Qed.

(** ** Reading an output handle *)

Lemma run_write_chip (self : ExpandedIO.t) (value : Z) (c : Chip) :
  responds c (i2c_address (ExpandedIO._parent self)) = true ->
  let p := Pin_value (ExpandedIO._pin self) in
  run chip_bus (ExpandedIO.write self value) c =
  (Done tt,
   after_write (after_read c OLAT) GPIO
               (if value =? 0
                then u8 (Z.land (u8 (olat c)) (Z.lnot p))
                else u8 (Z.lor (u8 (olat c)) p))).
Proof.
  intros H p. unfold ExpandedIO.write, read_outputs, write_outputs.
  rewrite run_bind, run_read_register_chip by exact H.
  destruct (value =? 0); cbn [negb];
    rewrite run_write_register_chip by exact H; reflexivity.
Qed.

(** The GPIO bit of a pin that is driven as an output, carries no overriding
    load and is not inverted equals the pin's latch bit. *)
Lemma gpio_follows_latch (c : Chip) (p : Z) :
  is_u8 p ->
  is_u8 (olat c) ->
  Z.land (iodir c) p = 0 ->
  Z.land (load c) p = 0 ->
  Z.land (ipol c) p = 0 ->
  Z.land (gpio_value c) p = Z.land (olat c) p.
Proof.
  intros Hp Ho Hd Hl Hi. unfold gpio_value, pin_levels.
  revert Hd Hl Hi. as_byte p Hp. as_byte (olat c) Ho. intros Hd Hl Hi.
  apply Z.bits_inj'. intros n Hn.
  apply (f_equal (fun z => Z.testbit z n)) in Hd, Hl, Hi.
  rewrite Z.land_spec, Z.bits_0, u8_testbit in Hd, Hl, Hi by exact Hn.
  repeat first
    [ rewrite Z.land_spec | rewrite Z.lor_spec | rewrite Z.lxor_spec
    | rewrite u8_testbit by exact Hn | rewrite Z.lnot_spec by exact Hn ].
  destruct (Z.testbit (iodir c) n), (Z.testbit (load c) n),
    (Z.testbit (ipol c) n), (Z.testbit p n), (Z.testbit (olat c) n),
    (Z.testbit (ext c) n), (n <? 8);
    simpl in *; congruence.
Qed.

(** C2, as amended: [write] on an output handle records the commanded level
    in the handle's bit of the output latch and leaves the other latch bits
    alone; [read] on the handle returns the live GPIO register masked by the
    pin, not the latch.  The two agree when the pin is driven as an output,
    carries no overriding load and its polarity is not inverted. *)
Theorem output_read_is_live_port (self : ExpandedIO.t) (c : Chip) (value : Z) :
  responds c (i2c_address (ExpandedIO._parent self)) = true ->
  chip_ok c = true ->
  let pin := ExpandedIO._pin self in
  let p := Pin_value pin in
  exists c1 c2,
    run chip_bus (ExpandedOutput.write self value) c = (Done tt, c1)
    /\ Z.land (olat c1) p = commanded pin value
    /\ Z.land (olat c1) (Z.lnot p) = Z.land (olat c) (Z.lnot p)
    /\ run chip_bus (ExpandedOutput.read self) c1 =
       (Done (Z.land (gpio_value c1) p), c2)
    /\ (Z.land (iodir c1) p = 0 ->
        Z.land (load c1) p = 0 ->
        Z.land (ipol c1) p = 0 ->
        Z.land (gpio_value c1) p = commanded pin value).
Proof.
  intros H Hok pin p.
  destruct (chip_ok_bytes c Hok)
    as (_ & _ & _ & _ & _ & _ & _ & _ & _ & _ & Ho & _).
  assert (Hp : is_u8 p).
  { subst p pin. unfold is_u8. destruct (ExpandedIO._pin self); simpl; lia. }
  unfold ExpandedOutput.write, ExpandedOutput.read,
    ExpandedIO.internal_write, ExpandedIO.internal_read.
  rewrite (run_write_chip self value c H). fold pin p.
  set (v := if value =? 0
            then u8 (Z.land (u8 (olat c)) (Z.lnot p))
            else u8 (Z.lor (u8 (olat c)) p)).
  set (c1 := after_write (after_read c OLAT) GPIO v).
  assert (Hlatch : olat c1 = v) by reflexivity.
  assert (Hcmd : Z.land v p = commanded pin value).
  { subst v. unfold commanded. fold p. destruct (value =? 0).
    - as_byte p Hp. bitwise.
    - as_byte p Hp. bitwise. }
  assert (Hv : is_u8 v).
  { subst v. destruct (value =? 0); apply u8_range. }
  exists c1, (after_read c1 GPIO).
  split; [reflexivity|]. rewrite Hlatch.
  split; [exact Hcmd|]. split.
  - subst v. destruct (value =? 0).
    + as_byte (olat c) Ho. as_byte p Hp. bitwise.
    + as_byte (olat c) Ho. as_byte p Hp. bitwise.
  - split.
    + apply run_read_chip. exact H.
    + intros Hd Hl Hi. rewrite <- Hcmd, <- Hlatch.
      apply gpio_follows_latch; assumption.
Qed.

Lemma output_read_is_live_port_witness :
  let self := ExpandedIO.make {| i2c_address := 0x40 |} Pin_GP0 in
  let c := after_write (power_on 0 0x00 0x00) IODIR 0xFE in
  exists c1 c2,
    run chip_bus (ExpandedOutput.write self 1) c = (Done tt, c1)
    /\ Z.land (olat c1) 0x01 = 0x01
    /\ Z.land (olat c1) (Z.lnot 0x01) = Z.land 0 (Z.lnot 0x01)
    /\ run chip_bus (ExpandedOutput.read self) c1 =
       (Done (Z.land (gpio_value c1) 0x01), c2)
    /\ (Z.land (iodir c1) 0x01 = 0 ->
        Z.land (load c1) 0x01 = 0 ->
        Z.land (ipol c1) 0x01 = 0 ->
        Z.land (gpio_value c1) 0x01 = 0x01).
Proof.
  intros self c.
  apply (output_read_is_live_port self c 1); reflexivity.
Defined.

(** C2, as the specification words it, fails: with GP0 shorted to ground the
    handle is told to drive high, the latch holds 1, and [read] returns 0. *)
Lemma output_read_not_commanded :
  ~ output_read_returns_commanded
      (power_on 0 0x00 0x01) {| i2c_address := 0x40 |} Pin_GP0 1.
Proof.
  intros [c' E]. vm_compute in E. discriminate E.
Qed.

Example output_read_latch_and_port :
  let self := ExpandedIO.make {| i2c_address := 0x40 |} Pin_GP0 in
  let r := run chip_bus (h <- as_output {| i2c_address := 0x40 |} Pin_GP0 ;;
                         ExpandedOutput.write h 1 ;;
                         v <- ExpandedOutput.read h ;;
                         o <- read_outputs {| i2c_address := 0x40 |} ;;
                         Ret (v, o))
               (power_on 0 0x00 0x01) in
  fst r = Done (0, 1).
Proof. reflexivity. Qed.

(** ** The reset sequence *)

Lemma reads_back_chip (self : MCP23008) (c : Chip) (r : Z) :
  responds c (i2c_address self) = true ->
  reads_back self c r (u8 (chip_get c (u8 r))).
Proof.
  intros H. unfold reads_back.
  rewrite run_read_register_chip by exact H. reflexivity.
Qed.

(** With every pin an input and no inversion the port shows the circuit. *)
Lemma port_all_inputs (e l : Z) :
  is_u8 e ->
  is_u8 l ->
  u8 (Z.lxor (u8 (Z.lor (Z.land 0 (Z.lnot (Z.lor 0xFF l)))
                        (Z.land e (Z.lor 0xFF l)))) 0) = e.
Proof.
  intros He Hl. rewrite Z.land_0_l, Z.lor_0_l, Z.lxor_0_r, u8_idem.
  as_byte e He. apply Z.bits_inj'. intros n Hn.
  rewrite u8_testbit, Z.land_spec, Z.lor_spec, u8_testbit by exact Hn.
  change 0xFF with (Z.ones 8). rewrite Z.testbit_ones_nonneg by lia.
  destruct (Z.testbit e n), (Z.testbit l n), (n <? 8); reflexivity.
Qed.

(** C4, as amended: construction on a chip strapped to a valid [s] sets the
    bus frequency and then issues exactly eleven two-byte writes, 0xFF to the
    direction register first and then zero to each register address from
    0x01 to 0x0A, one transaction each.  Afterwards the direction register
    reads 0xFF and the writable registers IPOL, GPINTEN, DEFVAL, INTCON,
    IOCON, GPPU and OLAT read zero; the read-only INTF and INTCAP keep their
    content and GPIO reads the levels on the pins, all of them inputs. *)
Theorem construction_resets_registers
        (sda scl : PinName) (s : Z) (freq : Frequency) (c : Chip) :
  0 <= s <= 7 ->
  strap c = s ->
  chip_ok c = true ->
  exists self c',
    let a := i2c_address self in
    exec chip_bus (MCP23008_new sda scl s freq) c =
    (Done self, c',
     [EvFrequency (Frequency_value freq);
      EvWrite a [IODIR; 0xFF] 0;
      EvWrite a [IPOL; 0] 0; EvWrite a [GPINTEN; 0] 0;
      EvWrite a [DEFVAL; 0] 0; EvWrite a [INTCON; 0] 0;
      EvWrite a [IOCON; 0] 0; EvWrite a [GPPU; 0] 0;
      EvWrite a [INTF; 0] 0; EvWrite a [INTCAP; 0] 0;
      EvWrite a [GPIO; 0] 0; EvWrite a [OLAT; 0] 0])
    /\ reads_back self c' IODIR 0xFF
    /\ (forall r,
           In r [IPOL; GPINTEN; DEFVAL; INTCON; IOCON; GPPU; OLAT] ->
           reads_back self c' r 0)
    /\ reads_back self c' INTF (intf c)
    /\ reads_back self c' INTCAP (intcap c)
    /\ reads_back self c' GPIO (ext c).
Proof.
  intros Hs Hc Hok.
  destruct (chip_ok_bytes c Hok)
    as (_ & _ & _ & _ & _ & _ & _ & _ & Hf & Hcap & _ & He & Hl).
  destruct (strap_address s Hs) as (_ & _ & Hm).
  set (self := {| i2c_address := Z.lor MCP23008_ADDRESS (Z.shiftl s 1) |}).
  exists self, (after_reset c).
  cbn zeta.
  assert (H : responds (after_reset c) (i2c_address self) = true).
  { unfold responds, chip_address.
    change (strap (after_reset c)) with (strap c).
    subst self. cbn [i2c_address]. rewrite Hc, Hm. apply Z.eqb_refl. }
  split; [apply exec_new_chip; assumption|].
  split; [apply (reads_back_chip self _ IODIR H)|].
  split.
  - intros r Hr. simpl in Hr.
    destruct Hr as [E|[E|[E|[E|[E|[E|[E|[]]]]]]]]; subst r;
      match goal with
      | |- reads_back _ _ ?r _ => exact (reads_back_chip self _ r H)
      end.
  - split; [|split].
    + replace (intf c) with (u8 (chip_get (after_reset c) (u8 INTF)))
        by (apply u8_small, Hf).
      apply (reads_back_chip self _ _ H).
    + replace (intcap c) with (u8 (chip_get (after_reset c) (u8 INTCAP)))
        by (apply u8_small, Hcap).
      apply (reads_back_chip self _ _ H).
    + replace (ext c) with (u8 (chip_get (after_reset c) (u8 GPIO))).
      * apply (reads_back_chip self _ _ H).
      * change (chip_get (after_reset c) (u8 GPIO))
          with (u8 (Z.lxor
                      (u8 (Z.lor (Z.land 0 (Z.lnot (Z.lor 0xFF (load c))))
                                 (Z.land (ext c) (Z.lor 0xFF (load c)))))
                      0)).
        rewrite u8_idem. apply port_all_inputs; assumption.
Qed.

Lemma construction_resets_registers_witness :
  exists self c',
    let a := i2c_address self in
    exec chip_bus (MCP23008_new 0 1 3 Frequency_400KHz) (power_on 3 0xA5 0) =
    (Done self, c',
     [EvFrequency 400000;
      EvWrite a [IODIR; 0xFF] 0;
      EvWrite a [IPOL; 0] 0; EvWrite a [GPINTEN; 0] 0;
      EvWrite a [DEFVAL; 0] 0; EvWrite a [INTCON; 0] 0;
      EvWrite a [IOCON; 0] 0; EvWrite a [GPPU; 0] 0;
      EvWrite a [INTF; 0] 0; EvWrite a [INTCAP; 0] 0;
      EvWrite a [GPIO; 0] 0; EvWrite a [OLAT; 0] 0])
    /\ reads_back self c' IODIR 0xFF
    /\ (forall r,
           In r [IPOL; GPINTEN; DEFVAL; INTCON; IOCON; GPPU; OLAT] ->
           reads_back self c' r 0)
    /\ reads_back self c' INTF 0
    /\ reads_back self c' INTCAP 0
    /\ reads_back self c' GPIO 0xA5.
Proof.
  apply (construction_resets_registers
           0 1 3 Frequency_400KHz (power_on 3 0xA5 0)).
  - lia.
  - reflexivity.
  - reflexivity.
Defined.

(** C4, as the specification words it, fails: after construction with GP0
    held high by the circuit, the input-state register 0x09 reads 1. *)
Lemma reset_leaves_port_readable :
  ~ reset_clears_registers (power_on 0 0x01 0) 0 Frequency_100KHz.
Proof.
  intros (self & c' & E & _ & Hall).
  vm_compute in E. inversion E. subst self c'. clear E.
  specialize (Hall GPIO ltac:(unfold IPOL, GPIO, OLAT; lia)).
  vm_compute in Hall. discriminate Hall.
Qed.

(** ** Concurrent callers *)

Lemma finished_cannot_step (i : nat) (p : Prog unit) (w : World) :
  finished p = true -> step i p w = None.
Proof.
  destruct p; try discriminate. intros _. unfold step.
  destruct (halted w); reflexivity.
Qed.

(** Every schedule that brings all threads to completion ends in one of the
    worlds [final_worlds] lists. *)
Lemma final_worlds_complete (sched : list nat) :
  forall (fuel : nat) (pool pool' : list (Prog unit)) (w w' : World),
    run_schedule sched pool w = Some (pool', w') ->
    forallb finished pool' = true ->
    (List.length sched <= fuel)%nat ->
    In w' (final_worlds fuel pool w).
Proof.
  induction sched as [|i sched IH]; intros fuel pool pool' w w' Hrun Hfin Hlen.
  - simpl in Hrun. inversion Hrun. subst pool' w'.
    destruct fuel; simpl; rewrite Hfin; left; reflexivity.
  - simpl in Hrun.
    destruct (nth_error pool i) as [p|] eqn:Hp; [|discriminate].
    destruct (step i p w) as [[p' w1]|] eqn:Hstep; [|discriminate].
    assert (Hnot : forallb finished pool = false).
    { destruct (forallb finished pool) eqn:Hall; [|reflexivity].
      rewrite forallb_forall in Hall.
      rewrite (finished_cannot_step i p w) in Hstep; [discriminate|].
      apply Hall. eapply nth_error_In. exact Hp. }
    destruct fuel as [|fuel]; [simpl in Hlen; lia|].
    simpl final_worlds. rewrite Hnot.
    apply in_flat_map. exists i. split.
    + apply in_seq. split; [lia|]. simpl.
      apply nth_error_Some. rewrite Hp. discriminate.
    + rewrite Hp, Hstep. apply (IH fuel _ pool' _ w'); try assumption.
      simpl in Hlen. lia.
Qed.

(** C8 fails for the bulk direction operations: [read_register] releases the
    mutex before [write_register], which never takes it, sends the modified
    value.  Two threads that call [set_output_pins 0x01] and
    [set_output_pins 0x02] on a freshly reset chip can both read 0xFF before
    either writes; the direction register ends as 0xFD, the first thread's
    update lost, where either sequential order gives 0xFC.  The same happens
    to [set_input_pins] from an all-output direction register. *)
Theorem direction_update_can_be_lost :
  let self := {| i2c_address := 0x40 |} in
  let fresh := after_reset (power_on 0 0 0) in
  let outputs := after_write fresh IODIR 0x00 in
  let sched := [0; 0; 0; 0; 1; 1; 1; 1; 0; 1]%nat in
  (exists w,
      run_schedule sched
                   [set_output_pins self 0x01; set_output_pins self 0x02]
                   (boot fresh) = Some ([Ret tt; Ret tt], w)
      /\ iodir (chip w) = 0xFD) /\
  (exists w,
      run_schedule sched
                   [set_input_pins self 0x01; set_input_pins self 0x02]
                   (boot outputs) = Some ([Ret tt; Ret tt], w)
      /\ iodir (chip w) = 0x02) /\
  (exists c,
      run chip_bus (set_output_pins self 0x01 ;; set_output_pins self 0x02)
          fresh = (Done tt, c) /\ iodir c = 0xFC) /\
  guarded 0 (trace (exec chip_bus (set_output_pins self 0x01) fresh)) = false /\
  guarded 0 (trace (exec chip_bus (set_input_pins self 0x01) fresh)) = false.
Proof.
  cbv zeta. split; [|split; [|split; [|split]]].
  - eexists. split; vm_compute; reflexivity.
  - eexists. split; vm_compute; reflexivity.
  - eexists. split; vm_compute; reflexivity.
  - vm_compute. reflexivity.
  - vm_compute. reflexivity.
Qed.

(** The outcomes of the two racing calls over all schedules: the correct
    0xFC, both lost updates, and 0x00, reached when the unguarded write of
    one thread falls between the register select and the read of the other
    and moves the chip's address pointer. *)
Example direction_race_outcomes :
  let self := {| i2c_address := 0x40 |} in
  nodup Z.eq_dec
        (map (fun w => iodir (chip w))
             (final_worlds 10
                [set_output_pins self 0x01; set_output_pins self 0x02]
                (boot (after_reset (power_on 0 0 0))))) =
  [0xFD; 0xFE; 0x00; 0xFC].
Proof. vm_compute. reflexivity. Qed.

(** The pull-up register after two racing [mode] calls, over all schedules. *)
Example mode_race_outcomes :
  let parent := {| i2c_address := 0x40 |} in
  map (fun w => gppu (chip w))
      (final_worlds 14
         [ExpandedIO.mode (ExpandedIO.make parent Pin_GP0) PullUp;
          ExpandedIO.mode (ExpandedIO.make parent Pin_GP1) PullUp]
         (boot (after_reset (power_on 0 0 0)))) =
  [0x03; 0x03].
Proof. vm_compute. reflexivity. Qed.

(** [mode] does hold the mutex across its read-modify-write: whatever the
    schedule, two threads that enable the pull-ups of GP0 and of GP1 leave
    both enabled. *)
Lemma mode_updates_are_not_lost (sched : list nat) (pool : list (Prog unit))
      (w : World) :
  let parent := {| i2c_address := 0x40 |} in
  run_schedule sched
               [ExpandedIO.mode (ExpandedIO.make parent Pin_GP0) PullUp;
                ExpandedIO.mode (ExpandedIO.make parent Pin_GP1) PullUp]
               (boot (after_reset (power_on 0 0 0))) = Some (pool, w) ->
  forallb finished pool = true ->
  (List.length sched <= 14)%nat ->
  gppu (chip w) = 0x03.
Proof.
  intros parent Hrun Hfin Hlen.
  pose proof (final_worlds_complete sched 14 _ pool _ w Hrun Hfin Hlen) as Hin.
  apply (in_map (fun w => gppu (chip w))) in Hin.
  subst parent. rewrite mode_race_outcomes in Hin.
  destruct Hin as [Hin|[Hin|[]]]; symmetry; exact Hin.
Qed.

(** ** Disciplines kept by every public operation *)

Lemma fail_stop_bind {A B : Type} (a : Z) (p : Prog A) (f : A -> Prog B) :
  fail_stop a p -> (forall x, fail_stop a (f x)) -> fail_stop a (bind p f).
Proof.
  intros Hp Hf. induction Hp as [x|msg|k _ IH|k _ IH|hz k _ IH
                                |d k Hlen Hd Hk _ IH|k Hk _ IH]; simpl.
  - apply Hf.
  - constructor.
  - constructor. exact IH.
  - constructor. exact IH.
  - constructor. exact IH.
  - constructor; try assumption.
    intros st Hst. destruct (Hk st Hst) as [msg E]. exists msg.
    rewrite E. reflexivity.
  - constructor.
    + intros st rx Hst. destruct (Hk st rx Hst) as [msg E]. exists msg.
      rewrite E. reflexivity.
    + exact IH.
Qed.

Lemma fail_stop_read_register (self : MCP23008) (reg : Z) :
  fail_stop (i2c_address self) (read_register self reg).
Proof.
  unfold read_register. simpl. apply fs_Lock. apply fs_Write.
  - simpl. lia.
  - repeat constructor; apply u8_range.
  - intros st Hst. destruct st; [contradiction| |]; eexists; reflexivity.
  - simpl. apply fs_Read.
    + intros st rx Hst. destruct st; [contradiction| |]; eexists;
        reflexivity.
    + intros rx. simpl. repeat constructor.
Qed.

Lemma fail_stop_write_register (self : MCP23008) (reg value : Z) :
  fail_stop (i2c_address self) (write_register self reg value).
Proof.
  unfold write_register. simpl. apply fs_Write.
  - simpl. lia.
  - repeat constructor; apply u8_range.
  - intros st Hst. destruct st; [contradiction| |]; eexists; reflexivity.
  - simpl. constructor.
Qed.

Ltac fail_stop_steps :=
  repeat match goal with
         | |- fail_stop _ (bind _ _) => apply fail_stop_bind; [|intros]
         | |- fail_stop _ (read_register _ _) =>
             apply fail_stop_read_register
         | |- fail_stop _ (write_register _ _ _) =>
             apply fail_stop_write_register
         | |- fail_stop _ (Ret _) => apply fs_Ret
         | |- fail_stop _ (Fatal _) => apply fs_Fatal
         | |- fail_stop _ (MutexLock _) => apply fs_Lock
         | |- fail_stop _ (MutexUnlock _) => apply fs_Unlock
         end.

Lemma fail_stop_reset_loop (self : MCP23008) (fuel : nat) :
  forall reg, fail_stop (i2c_address self) (reset_loop self fuel reg).
Proof.
  induction fuel as [|fuel IH]; intros reg; cbn [reset_loop].
  - constructor.
  - destruct (reg <=? OLAT); [|constructor].
    apply fail_stop_bind; [apply fail_stop_write_register|].
    intros _. apply IH.
Qed.

Lemma fail_stop_perform (self : MCP23008) (c : Call) :
  fail_stop (i2c_address self) (perform self c).
Proof.
  destruct c; cbn [perform]; unfold ignore.
  - unfold set_input_pins. fail_stop_steps.
  - unfold set_output_pins. fail_stop_steps.
  - unfold write_outputs. fail_stop_steps.
  - unfold read_outputs. fail_stop_steps.
  - unfold read_inputs. fail_stop_steps.
  - unfold set_input_polarity. fail_stop_steps.
  - unfold get_input_polarity. fail_stop_steps.
  - unfold set_pullups. fail_stop_steps.
  - unfold get_pullups. fail_stop_steps.
  - unfold interrupt_on_changes. fail_stop_steps.
  - unfold disable_interrupts. fail_stop_steps.
  - unfold acknowledge_interrupt. fail_stop_steps.
  - unfold as_input, ExpandedInput.new, ExpandedIO.internal_input,
      ExpandedIO.input, set_input_pins. cbn [ExpandedIO._parent].
    fail_stop_steps.
  - unfold as_output, ExpandedOutput.new, ExpandedIO.internal_output,
      ExpandedIO.output, set_output_pins. cbn [ExpandedIO._parent].
    fail_stop_steps.
  - unfold as_input_output, ExpandedInputOutput.new,
      ExpandedInputOutput.output, ExpandedIO.internal_output,
      ExpandedIO.output, set_output_pins. cbn [ExpandedIO._parent].
    fail_stop_steps.
  - unfold ExpandedIO.read, read_inputs. cbn [ExpandedIO._parent].
    fail_stop_steps.
  - unfold ExpandedIO.mode, get_pullups, set_pullups, mutex_lock,
      mutex_unlock, MBED_ASSERT. cbn [ExpandedIO._parent].
    destruct (negb (PinMode_eqb pull PullDown)); fail_stop_steps.
  - unfold ExpandedIO.write, read_outputs, write_outputs.
    cbn [ExpandedIO._parent].
    apply fail_stop_bind; [apply fail_stop_read_register|]. intros outputs.
    destruct (negb (value =? 0)); apply fail_stop_write_register.
  - unfold ExpandedIO.output, set_output_pins. cbn [ExpandedIO._parent].
    fail_stop_steps.
  - unfold ExpandedIO.input, set_input_pins. cbn [ExpandedIO._parent].
    fail_stop_steps.
Qed.

Lemma fail_stop_new (sda scl : PinName) (s : Z) (freq : Frequency) :
  fail_stop (u8 (Z.lor MCP23008_ADDRESS (Z.shiftl (u8 s) 1)))
            (MCP23008_new sda scl s freq).
Proof.
  unfold MCP23008_new, when_, error, i2c_frequency, reset.
  destruct (7 <? u8 s); cbn [bind]; [constructor|].
  apply fs_Frequency. cbn [bind].
  apply fail_stop_bind.
  - apply fail_stop_bind.
    + apply (fail_stop_write_register
               {| i2c_address :=
                   u8 (Z.lor MCP23008_ADDRESS (Z.shiftl (u8 s) 1)) |}).
    + intros _.
      apply (fail_stop_reset_loop
               {| i2c_address :=
                   u8 (Z.lor MCP23008_ADDRESS (Z.shiftl (u8 s) 1)) |}).
  - intros _. constructor.
Qed.

Lemma stops_at_nack_cons {A : Type} (o : Outcome A) (e0 : Event)
      (l : list Event) :
  nack e0 = false -> stops_at_nack o l -> stops_at_nack o (e0 :: l).
Proof.
  intros He0 Hl l1 e l2 E He. destruct l1 as [|e1 l1]; simpl in E.
  - inversion E. subst e0 l. rewrite He in He0. discriminate.
  - inversion E. subst e1 l. apply (Hl l1 e l2 eq_refl He).
Qed.

Lemma stops_at_nack_last {A : Type} (msg : string) (e0 : Event) :
  stops_at_nack (@Halted A msg) [e0].
Proof.
  intros l1 e l2 E He. destruct l1 as [|e1 l1]; simpl in E.
  - inversion E. split; [reflexivity|]. exists msg. reflexivity.
  - inversion E. destruct l1; discriminate.
Qed.

Lemma stops_at_nack_nil {A : Type} (o : Outcome A) : stops_at_nack o [].
Proof. intros l1 e l2 E. destruct l1; discriminate. Qed.

Lemma zero_status (st : Z) : st <> 0 -> negb (st =? 0) = true.
Proof.
  intros H. apply negb_true_iff, Z.eqb_neq. exact H.
Qed.

Lemma fail_stop_exec {S A : Type} (T : Transport S) (a : Z) (p : Prog A) :
  fail_stop a p ->
  forall s : S,
    Forall (well_addressed a) (trace (exec T p s)) /\
    stops_at_nack (fst (fst (exec T p s))) (trace (exec T p s)).
Proof.
  unfold trace.
  intros Hp. induction Hp as [x|msg|k _ IH|k _ IH|hz k _ IH
                             |d k Hlen Hd Hk _ IH|k Hk _ IH]; intros s;
    simpl.
  - split; [constructor|apply stops_at_nack_nil].
  - split; [constructor|apply stops_at_nack_nil].
  - specialize (IH s). destruct (exec T k s) as [[o s'] l]. simpl in *.
    destruct IH as [IH1 IH2]. split.
    + constructor; [exact I|exact IH1].
    + apply stops_at_nack_cons; [reflexivity|exact IH2].
  - specialize (IH s). destruct (exec T k s) as [[o s'] l]. simpl in *.
    destruct IH as [IH1 IH2]. split.
    + constructor; [exact I|exact IH1].
    + apply stops_at_nack_cons; [reflexivity|exact IH2].
  - specialize (IH (bus_frequency T hz s)).
    destruct (exec T k (bus_frequency T hz s)) as [[o s'] l]. simpl in *.
    destruct IH as [IH1 IH2]. split.
    + constructor; [exact I|exact IH1].
    + apply stops_at_nack_cons; [reflexivity|exact IH2].
  - destruct (bus_write T a d s) as [st s1].
    destruct (Z.eq_dec st 0) as [->|Hst].
    + specialize (IH s1). destruct (exec T (k 0) s1) as [[o s'] l].
      simpl in *. destruct IH as [IH1 IH2]. split.
      * constructor; [split; [reflexivity|split; assumption]|exact IH1].
      * apply stops_at_nack_cons; [reflexivity|exact IH2].
    + destruct (Hk st Hst) as [msg E]. rewrite E. simpl. split.
      * constructor; [split; [reflexivity|split; assumption]|constructor].
      * apply stops_at_nack_last.
  - destruct (bus_read T a 1 s) as [[st rx] s1].
    destruct (Z.eq_dec st 0) as [->|Hst].
    + specialize (IH rx s1). destruct (exec T (k 0 rx) s1) as [[o s'] l].
      simpl in *. destruct IH as [IH1 IH2]. split.
      * constructor; [split; reflexivity|exact IH1].
      * apply stops_at_nack_cons; [reflexivity|exact IH2].
    + destruct (Hk st rx Hst) as [msg E]. rewrite E. simpl. split.
      * constructor; [split; reflexivity|constructor].
      * apply stops_at_nack_last.
Qed.

Lemma done_has_no_nack {A : Type} (o : Outcome A) (l : list Event) (x : A) :
  stops_at_nack o l -> o = Done x -> existsb nack l = false.
Proof.
  intros Hl Ho. destruct (existsb nack l) eqn:E; [|reflexivity].
  apply existsb_exists in E. destruct E as (e & Hin & He).
  apply in_split in Hin. destruct Hin as (l1 & l2 & Hsplit).
  destruct (Hl l1 e l2 Hsplit He) as [_ [msg Hmsg]].
  rewrite Ho in Hmsg. discriminate.
Qed.

(** X1: on every transport, no public operation and no construction goes on
    after a transaction that is not acknowledged: such a transaction is the
    last event of the run and the run ends in a fatal error; a run that
    completes has had every transaction acknowledged. *)
Theorem operations_stop_at_missing_ack {S : Type} (T : Transport S) (s : S) :
  (forall (self : MCP23008) (c : Call),
      let r := exec T (perform self c) s in
      stops_at_nack (fst (fst r)) (trace r) /\
      (fst (fst r) = Done tt -> existsb nack (trace r) = false)) /\
  (forall (sda scl : PinName) (address : Z) (freq : Frequency),
      let r := exec T (MCP23008_new sda scl address freq) s in
      stops_at_nack (fst (fst r)) (trace r) /\
      (forall self, fst (fst r) = Done self ->
                    existsb nack (trace r) = false)).
Proof.
  split.
  - intros self c r.
    pose proof (proj2 (fail_stop_exec T _ _ (fail_stop_perform self c) s))
      as H.
    fold r in H. split; [exact H|]. apply done_has_no_nack. exact H.
  - intros sda scl address freq r.
    pose proof (proj2 (fail_stop_exec T _ _
                         (fail_stop_new sda scl address freq) s)) as H.
    fold r in H. split; [exact H|]. intros self. apply done_has_no_nack.
    exact H.
Qed.

(** X2: on every transport, every transaction of every public operation goes
    to the object's own device address, a write carrying one or two bytes,
    each within 0..255, and a read asking for exactly one byte; construction
    keeps to the address it computes from the strap. *)
Theorem operations_address_own_device {S : Type} (T : Transport S) (s : S) :
  (forall (self : MCP23008) (c : Call),
      Forall (well_addressed (i2c_address self))
             (trace (exec T (perform self c) s))) /\
  (forall (sda scl : PinName) (address : Z) (freq : Frequency),
      Forall (well_addressed
                (u8 (Z.lor MCP23008_ADDRESS (Z.shiftl (u8 address) 1))))
             (trace (exec T (MCP23008_new sda scl address freq) s))).
Proof.
  split.
  - intros self c.
    apply (proj1 (fail_stop_exec T _ _ (fail_stop_perform self c) s)).
  - intros sda scl address freq.
    apply (proj1 (fail_stop_exec T _ _
                    (fail_stop_new sda scl address freq) s)).
Qed.

(** ** The mutex across an operation *)

Lemma returns_at_bind {A B : Type} (d e g : nat)
      (p : Prog A) (f : A -> Prog B) :
  returns_at d e p -> (forall x, returns_at e g (f x)) ->
  returns_at d g (bind p f).
Proof.
  intros Hp Hf. induction Hp; simpl; try (constructor; auto; fail).
  apply Hf.
Qed.

Lemma returns_at_read_register (self : MCP23008) (reg : Z) (d : nat) :
  returns_at d d (read_register self reg).
Proof.
  unfold read_register. simpl. apply ra_Lock. apply ra_Write. intros st.
  destruct st; simpl; try constructor.
  intros st' rx. destruct st'; simpl; try constructor.
  constructor.
Qed.

Lemma returns_at_write_register (self : MCP23008) (reg value : Z) (d : nat) :
  returns_at d d (write_register self reg value).
Proof.
  unfold write_register. simpl. apply ra_Write. intros st.
  destruct st; simpl; constructor.
Qed.

Ltac returns_at_steps :=
  repeat match goal with
         | |- returns_at _ _ (bind _ _) =>
             eapply returns_at_bind; [|intros]
         | |- returns_at _ _ (read_register _ _) =>
             apply returns_at_read_register
         | |- returns_at _ _ (write_register _ _ _) =>
             apply returns_at_write_register
         | |- returns_at _ _ (Ret _) => apply ra_Ret
         | |- returns_at _ _ (Fatal _) => apply ra_Fatal
         | |- returns_at _ _ (MutexLock _) => apply ra_Lock
         | |- returns_at _ _ (MutexUnlock _) => apply ra_Unlock
         end.

Lemma returns_at_perform (self : MCP23008) (c : Call) :
  returns_at 0 0 (perform self c).
Proof.
  destruct c; cbn [perform]; unfold ignore.
  - unfold set_input_pins. returns_at_steps.
  - unfold set_output_pins. returns_at_steps.
  - unfold write_outputs. returns_at_steps.
  - unfold read_outputs. returns_at_steps.
  - unfold read_inputs. returns_at_steps.
  - unfold set_input_polarity. returns_at_steps.
  - unfold get_input_polarity. returns_at_steps.
  - unfold set_pullups. returns_at_steps.
  - unfold get_pullups. returns_at_steps.
  - unfold interrupt_on_changes. returns_at_steps.
  - unfold disable_interrupts. returns_at_steps.
  - unfold acknowledge_interrupt. returns_at_steps.
  - unfold as_input, ExpandedInput.new, ExpandedIO.internal_input,
      ExpandedIO.input, set_input_pins. returns_at_steps.
  - unfold as_output, ExpandedOutput.new, ExpandedIO.internal_output,
      ExpandedIO.output, set_output_pins. returns_at_steps.
  - unfold as_input_output, ExpandedInputOutput.new,
      ExpandedInputOutput.output, ExpandedIO.internal_output,
      ExpandedIO.output, set_output_pins. returns_at_steps.
  - unfold ExpandedIO.read, read_inputs. returns_at_steps.
  - unfold ExpandedIO.mode, get_pullups, set_pullups, mutex_lock,
      mutex_unlock, MBED_ASSERT.
    destruct (negb (PinMode_eqb pull PullDown)); cbn [bind];
      returns_at_steps.
  - unfold ExpandedIO.write, read_outputs, write_outputs.
    eapply returns_at_bind; [apply returns_at_read_register|].
    intros outputs.
    destruct (negb (value =? 0)); apply returns_at_write_register.
  - unfold ExpandedIO.output, set_output_pins. returns_at_steps.
  - unfold ExpandedIO.input, set_input_pins. returns_at_steps.
Qed.

Lemma returns_at_exec {S A : Type} (T : Transport S) (d e : nat)
      (p : Prog A) :
  returns_at d e p ->
  forall s : S,
    match fst (fst (exec T p s)) with
    | Done _ => depth_after d (trace (exec T p s)) = Some e
    | Halted _ => depth_after d (trace (exec T p s)) <> None
    end.
Proof.
  unfold trace.
  intros Hp. induction Hp as [d x|d e msg|d e k _ IH|d e k _ IH
                             |d e hz k _ IH|d e a data k _ IH
                             |d e a n k _ IH]; intros s; simpl.
  - reflexivity.
  - discriminate.
  - specialize (IH s). destruct (exec T k s) as [[o s'] l]. exact IH.
  - specialize (IH s). destruct (exec T k s) as [[o s'] l]. exact IH.
  - specialize (IH (bus_frequency T hz s)).
    destruct (exec T k (bus_frequency T hz s)) as [[o s'] l]. exact IH.
  - destruct (bus_write T a data s) as [st s1]. specialize (IH st s1).
    destruct (exec T (k st) s1) as [[o s'] l]. exact IH.
  - destruct (bus_read T a n s) as [[st rx] s1]. specialize (IH st rx s1).
    destruct (exec T (k st rx) s1) as [[o s'] l]. exact IH.
Qed.

(** X3: on every transport, a public operation that completes has unlocked
    the mutex exactly as often as it locked it, and no operation, completed
    or halted, ever unlocks a mutex it does not hold. *)
Theorem operations_release_the_mutex {S : Type} (T : Transport S)
        (self : MCP23008) (c : Call) (s : S) :
  let r := exec T (perform self c) s in
  depth_after 0 (trace r) <> None /\
  (fst (fst r) = Done tt -> depth_after 0 (trace r) = Some 0%nat).
Proof.
  intros r.
  pose proof (returns_at_exec T 0 0 _ (returns_at_perform self c) s) as H.
  fold r in H. destruct (fst (fst r)) as [[]|msg].
  - split; [rewrite H; discriminate|]. intros _. exact H.
  - split; [exact H|]. discriminate.
Qed.

(** ** Effects of single operations on the chip *)

Lemma same_registers_refl (c : Chip) : same_registers c c.
Proof. repeat split. Qed.

Lemma same_registers_after_read (c : Chip) (r : Z) :
  same_registers c (after_read c r).
Proof. repeat split. Qed.

Lemma same_registers_after_write (c : Chip) (r v : Z) :
  same_registers (chip_put c r v) (after_write c r v).
Proof. repeat split. Qed.

Lemma byte_land_lnot (x p : Z) :
  is_u8 x -> u8 (Z.land (u8 x) (Z.lnot (u8 p))) = Z.land x (Z.lnot (u8 p)).
Proof. intros Hx. as_byte x Hx. bitwise. Qed.

Lemma byte_lor (x p : Z) :
  is_u8 x -> u8 (Z.lor (u8 x) (u8 p)) = Z.lor x (u8 p).
Proof. intros Hx. as_byte x Hx. bitwise. Qed.

(** X4: the polarity and pull-up registers are set and read back whole:
    [set_input_polarity v] followed by [get_input_polarity] returns [v], and
    [set_pullups v] followed by [get_pullups] returns [v], whatever the
    register held before; each setter changes its own register only. *)
Theorem configuration_round_trips (self : MCP23008) (c : Chip) (v : Z) :
  responds c (i2c_address self) = true ->
  is_u8 v ->
  (exists c',
      run chip_bus (set_input_polarity self v ;; get_input_polarity self) c =
      (Done v, c')
      /\ same_registers (chip_put c IPOL v) c') /\
  (exists c',
      run chip_bus (set_pullups self v ;; get_pullups self) c = (Done v, c')
      /\ same_registers (chip_put c GPPU v) c').
Proof.
  intros H Hv. split.
  - unfold set_input_polarity, get_input_polarity.
    rewrite run_bind, run_write_register_chip by exact H.
    rewrite run_read_register_chip by exact H.
    change (chip_get (after_write c (u8 IPOL) (u8 v)) (u8 IPOL)) with (u8 v).
    rewrite u8_idem, (u8_small v Hv).
    eexists. split; [reflexivity|]. repeat split.
  - unfold set_pullups, get_pullups.
    rewrite run_bind, run_write_register_chip by exact H.
    rewrite run_read_register_chip by exact H.
    change (chip_get (after_write c (u8 GPPU) (u8 v)) (u8 GPPU)) with (u8 v).
    rewrite u8_idem, (u8_small v Hv).
    eexists. split; [reflexivity|]. repeat split.
Qed.

Lemma configuration_round_trips_witness :
  (exists c',
      run chip_bus (set_input_polarity {| i2c_address := 0x40 |} 0xA5 ;;
                    get_input_polarity {| i2c_address := 0x40 |})
          (power_on 0 0 0) = (Done 0xA5, c')
      /\ same_registers (chip_put (power_on 0 0 0) IPOL 0xA5) c') /\
  (exists c',
      run chip_bus (set_pullups {| i2c_address := 0x40 |} 0xA5 ;;
                    get_pullups {| i2c_address := 0x40 |})
          (power_on 0 0 0) = (Done 0xA5, c')
      /\ same_registers (chip_put (power_on 0 0 0) GPPU 0xA5) c').
Proof.
  apply (configuration_round_trips {| i2c_address := 0x40 |}
                                   (power_on 0 0 0) 0xA5).
  - reflexivity.
  - unfold is_u8. lia.
Defined.

(** X5: [acknowledge_interrupt] reads the interrupt-flag register and then
    the interrupt-capture register, returns the two bytes as (pin, values),
    and writes to no register. *)
Theorem acknowledge_interrupt_reads_only (self : MCP23008) (c : Chip) :
  responds c (i2c_address self) = true ->
  chip_ok c = true ->
  let a := i2c_address self in
  exists c',
    exec chip_bus (acknowledge_interrupt self) c =
    (Done (intf c, intcap c), c',
     [EvLock; EvWrite a [INTF] 0; EvRead a 1 0 [intf c]; EvUnlock;
      EvLock; EvWrite a [INTCAP] 0; EvRead a 1 0 [intcap c]; EvUnlock])
    /\ same_registers c c'.
Proof.
  intros H Hok a.
  destruct (chip_ok_bytes c Hok)
    as (_ & _ & _ & _ & _ & _ & _ & _ & Hf & Hcap & _).
  unfold acknowledge_interrupt.
  rewrite exec_bind, exec_read_register_chip by exact H.
  rewrite exec_bind, exec_read_register_chip by exact H.
  change (chip_get c (u8 INTF)) with (intf c).
  change (chip_get (after_read c (u8 INTF)) (u8 INTCAP)) with (intcap c).
  rewrite (u8_small _ Hf), (u8_small _ Hcap).
  eexists. split; [reflexivity|]. repeat split.
Qed.

Lemma acknowledge_interrupt_reads_only_witness :
  let c := chip_put (power_on 0 0 0) GPINTEN 0x01 in
  exists c',
    exec chip_bus (acknowledge_interrupt {| i2c_address := 0x40 |}) c =
    (Done (0, 0), c',
     [EvLock; EvWrite 0x40 [INTF] 0; EvRead 0x40 1 0 [0]; EvUnlock;
      EvLock; EvWrite 0x40 [INTCAP] 0; EvRead 0x40 1 0 [0]; EvUnlock])
    /\ same_registers c c'.
Proof.
  intros c.
  apply (acknowledge_interrupt_reads_only {| i2c_address := 0x40 |} c);
    reflexivity.
Defined.

(** X6: the bulk direction operations change the direction register and
    nothing else: [set_input_pins pins] leaves IODIR = old | pins and
    [set_output_pins pins] leaves IODIR = old & ~pins, so an empty mask
    changes nothing and the full mask forces all pins to one direction. *)
Theorem direction_operations_frame (self : MCP23008) (c : Chip) (pins : Z) :
  responds c (i2c_address self) = true ->
  chip_ok c = true ->
  is_u8 pins ->
  (exists c',
      run chip_bus (set_input_pins self pins) c = (Done tt, c')
      /\ same_registers (chip_put c IODIR (Z.lor (iodir c) pins)) c') /\
  (exists c',
      run chip_bus (set_output_pins self pins) c = (Done tt, c')
      /\ same_registers
           (chip_put c IODIR (Z.land (iodir c) (Z.lnot pins))) c').
Proof.
  intros H Hok Hp.
  destruct (chip_ok_bytes c Hok) as (_ & Hd & _).
  split.
  - rewrite run_set_input_pins_chip by exact H.
    rewrite (byte_lor _ _ Hd), (u8_small pins Hp).
    eexists. split; [reflexivity|]. repeat split.
  - rewrite run_set_output_pins_chip by exact H.
    rewrite (byte_land_lnot _ _ Hd), (u8_small pins Hp).
    eexists. split; [reflexivity|]. repeat split.
Qed.

Lemma direction_operations_frame_witness :
  let c := power_on 0 0 0 in
  (exists c',
      run chip_bus (set_input_pins {| i2c_address := 0x40 |} 0x00) c =
      (Done tt, c')
      /\ same_registers (chip_put c IODIR (Z.lor 0xFF 0x00)) c') /\
  (exists c',
      run chip_bus (set_output_pins {| i2c_address := 0x40 |} 0xFF) c =
      (Done tt, c')
      /\ same_registers (chip_put c IODIR (Z.land 0xFF (Z.lnot 0xFF))) c').
Proof.
  intros c.
  destruct (direction_operations_frame
              {| i2c_address := 0x40 |} c 0x00 eq_refl eq_refl
              ltac:(unfold is_u8; lia)) as [Hin _].
  destruct (direction_operations_frame
              {| i2c_address := 0x40 |} c 0xFF eq_refl eq_refl
              ltac:(unfold is_u8; lia)) as [_ Hout].
  split; [exact Hin|exact Hout].
Defined.

Lemma Pin_value_byte (pin : Pin) : is_u8 (Pin_value pin).
Proof. unfold is_u8. destruct pin; simpl; lia. Qed.

(** X7: creating a handle sets the direction of its pin and nothing else:
    [as_input] makes the pin an input, [as_output] and [as_input_output]
    make it an output; every other direction bit and every other register
    stay as they were, and the handle returned is bound to the object and to
    the pin asked for. *)
Theorem handle_creation_sets_direction
        (self : MCP23008) (pin : Pin) (c : Chip) :
  responds c (i2c_address self) = true ->
  chip_ok c = true ->
  let p := Pin_value pin in
  let h := ExpandedIO.make self pin in
  (exists c',
      run chip_bus (as_input self pin) c = (Done h, c')
      /\ same_registers (chip_put c IODIR (Z.lor (iodir c) p)) c') /\
  (exists c',
      run chip_bus (as_output self pin) c = (Done h, c')
      /\ same_registers (chip_put c IODIR (Z.land (iodir c) (Z.lnot p))) c')
  /\
  (exists c',
      run chip_bus (as_input_output self pin) c = (Done h, c')
      /\ same_registers (chip_put c IODIR (Z.land (iodir c) (Z.lnot p))) c').
Proof.
  intros H Hok p h.
  destruct (chip_ok_bytes c Hok) as (_ & Hd & _).
  pose proof (Pin_value_byte pin) as Hp. fold p in Hp.
  split; [|split].
  - unfold as_input, ExpandedInput.new, ExpandedIO.internal_input,
      ExpandedIO.input. cbn [ExpandedIO._parent ExpandedIO._pin].
    rewrite run_bind, run_set_input_pins_chip by exact H. fold p.
    rewrite (byte_lor _ _ Hd), (u8_small p Hp).
    eexists. split; [reflexivity|]. repeat split.
  - unfold as_output, ExpandedOutput.new, ExpandedIO.internal_output,
      ExpandedIO.output. cbn [ExpandedIO._parent ExpandedIO._pin].
    rewrite run_bind, run_set_output_pins_chip by exact H. fold p.
    rewrite (byte_land_lnot _ _ Hd), (u8_small p Hp).
    eexists. split; [reflexivity|]. repeat split.
  - unfold as_input_output, ExpandedInputOutput.new,
      ExpandedInputOutput.output, ExpandedIO.internal_output,
      ExpandedIO.output. cbn [ExpandedIO._parent ExpandedIO._pin].
    rewrite run_bind, run_set_output_pins_chip by exact H. fold p.
    rewrite (byte_land_lnot _ _ Hd), (u8_small p Hp).
    eexists. split; [reflexivity|]. repeat split.
Qed.

Lemma handle_creation_sets_direction_witness :
  let self := {| i2c_address := 0x40 |} in
  let c := power_on 0 0 0 in
  exists c',
    run chip_bus (as_output self Pin_GP2) c =
    (Done (ExpandedIO.make self Pin_GP2), c')
    /\ same_registers (chip_put c IODIR (Z.land 0xFF (Z.lnot 0x04))) c'.
Proof.
  intros self c.
  apply (proj1 (proj2 (handle_creation_sets_direction
                         self Pin_GP2 c eq_refl eq_refl))).
Defined.

(** ** A chip that does not answer *)

Lemma other_strap_is_silent (c : Chip) (s : Z) :
  0 <= s <= 7 ->
  0 <= strap c <= 7 ->
  strap c <> s ->
  responds c (Z.lor MCP23008_ADDRESS (Z.shiftl s 1)) = false.
Proof.
  intros Hs Hc Hne. unfold responds, chip_address.
  assert (Es : s = 0 \/ s = 1 \/ s = 2 \/ s = 3 \/
               s = 4 \/ s = 5 \/ s = 6 \/ s = 7) by lia.
  assert (Ec : strap c = 0 \/ strap c = 1 \/ strap c = 2 \/ strap c = 3 \/
               strap c = 4 \/ strap c = 5 \/ strap c = 6 \/ strap c = 7)
    by lia.
  apply Z.eqb_neq. intros E. apply Hne.
  repeat (destruct Es as [Es|Es]; [| ]);
    repeat (destruct Ec as [Ec|Ec]; [| ]);
    rewrite Es, Ec in *; try reflexivity; vm_compute in E; discriminate E.
Qed.

Lemma exec_write_register_silent (self : MCP23008) (reg value : Z) (c : Chip) :
  responds c (i2c_address self) = false ->
  exec chip_bus (write_register self reg value) c =
  (Halted "MCP23008::write_register: Missing ACK for write", c,
   [EvWrite (i2c_address self) [u8 reg; u8 value] 1]).
Proof.
  intros H. unfold write_register. simpl. unfold chip_write.
  rewrite H. reflexivity.
Qed.

Lemma silent_chip_halts (self : MCP23008) (call : Call) (c : Chip) :
  responds c (i2c_address self) = false ->
  exists msg l, exec chip_bus (perform self call) c = (Halted msg, c, l).
Proof.
  intros H.
  assert (Hr : forall reg,
             exists msg l,
               exec chip_bus (read_register self reg) c = (Halted msg, c, l)).
  { intros reg. unfold read_register. simpl. unfold chip_write.
    rewrite H. simpl. eauto. }
  assert (Hw : forall reg v,
             exists msg l,
               exec chip_bus (write_register self reg v) c =
               (Halted msg, c, l)).
  { intros reg v. unfold write_register. simpl. unfold chip_write.
    rewrite H. simpl. eauto. }
  assert (Hb : forall (A B : Type) (p : Prog A) (f : A -> Prog B),
             (exists msg l, exec chip_bus p c = (Halted msg, c, l)) ->
             exists msg l, exec chip_bus (bind p f) c = (Halted msg, c, l)).
  { intros A B p f (msg & l & E). rewrite exec_bind, E. eauto. }
  destruct call; cbn [perform]; unfold ignore;
    try (apply Hw); try (apply Hb; apply Hr);
    try (apply Hb; apply Hb; apply Hr).
  - apply Hb. unfold as_input, ExpandedInput.new,
      ExpandedIO.internal_input, ExpandedIO.input, set_input_pins.
    apply Hb, Hb, Hr.
  - apply Hb. unfold as_output, ExpandedOutput.new,
      ExpandedIO.internal_output, ExpandedIO.output, set_output_pins.
    apply Hb, Hb, Hr.
  - apply Hb. unfold as_input_output, ExpandedInputOutput.new,
      ExpandedInputOutput.output, ExpandedIO.internal_output,
      ExpandedIO.output, set_output_pins.
    apply Hb, Hb, Hr.
  - unfold ExpandedIO.mode, MBED_ASSERT, get_pullups.
    destruct (negb (PinMode_eqb pull PullDown)).
    + cbn [bind mutex_lock]. cbn [exec].
      destruct (Hb _ _ (read_register self GPPU)
                   (fun pullups : Z =>
                      set_pullups self
                        (if PinMode_eqb pull PullNone
                         then u8 (Z.land pullups
                                    (Z.lnot (Pin_value pin)))
                         else if PinMode_eqb pull PullUp
                              then u8 (Z.lor pullups (Pin_value pin))
                              else pullups) ;; mutex_unlock)
                   (Hr GPPU)) as (msg & l & E).
      cbn [ExpandedIO._parent ExpandedIO._pin]. rewrite E. eauto.
    + simpl. eauto.
Qed.

(** X8: a chip strapped to another address is left exactly as it was:
    construction for strap [s] halts on the first write of the reset
    sequence, which is not acknowledged, and every public operation of an
    object whose address the chip does not answer halts without changing
    the chip. *)
Theorem unanswered_address_changes_nothing (c : Chip) :
  0 <= strap c <= 7 ->
  (forall (sda scl : PinName) (s : Z) (freq : Frequency),
      0 <= s <= 7 ->
      strap c <> s ->
      let a := Z.lor MCP23008_ADDRESS (Z.shiftl s 1) in
      exec chip_bus (MCP23008_new sda scl s freq) c =
      (Halted "MCP23008::write_register: Missing ACK for write", c,
       [EvFrequency (Frequency_value freq); EvWrite a [IODIR; 0xFF] 1])) /\
  (forall (self : MCP23008) (call : Call),
      responds c (i2c_address self) = false ->
      exists msg l,
        exec chip_bus (perform self call) c = (Halted msg, c, l)).
Proof.
  intros Hc. split.
  - intros sda scl s freq Hs Hne a.
    destruct (strap_address s Hs) as (Ha & Hle & _).
    pose proof (other_strap_is_silent c s Hs Hc Hne) as Hsilent.
    unfold MCP23008_new. rewrite Ha, Hle. simpl when_.
    cbn [bind i2c_frequency exec chip_bus bus_frequency].
    unfold reset. rewrite !exec_bind.
    rewrite exec_write_register_silent by exact Hsilent. reflexivity.
  - intros self call H. apply silent_chip_halts. exact H.
Qed.

Lemma unanswered_address_changes_nothing_witness :
  exec chip_bus (MCP23008_new 0 1 3 Frequency_100KHz) (power_on 5 0 0) =
  (Halted "MCP23008::write_register: Missing ACK for write", power_on 5 0 0,
   [EvFrequency 100000; EvWrite 0x46 [IODIR; 0xFF] 1]).
Proof.
  apply (proj1 (unanswered_address_changes_nothing
                  (power_on 5 0 0) ltac:(simpl; lia))
               0 1 3 Frequency_100KHz).
  - lia.
  - discriminate.
Defined.

(** ** Interrupt configuration, one operation at a time *)

(** X9: [interrupt_on_changes pins] first clears the INTCON bits of [pins]
    and only then sets their GPINTEN bits, each by its own read and write;
    [disable_interrupts pins] clears the GPINTEN bits of [pins].  Neither
    touches any other bit or register, DEFVAL and INTCON included for
    [disable_interrupts]. *)
Theorem interrupt_operations_frame (self : MCP23008) (c : Chip) (pins : Z) :
  responds c (i2c_address self) = true ->
  chip_ok c = true ->
  is_u8 pins ->
  let a := i2c_address self in
  let con := Z.land (intcon c) (Z.lnot pins) in
  let en := Z.lor (gpinten c) pins in
  (exists c',
      exec chip_bus (interrupt_on_changes self pins) c =
      (Done tt, c',
       [EvLock; EvWrite a [INTCON] 0; EvRead a 1 0 [intcon c]; EvUnlock;
        EvWrite a [INTCON; con] 0;
        EvLock; EvWrite a [GPINTEN] 0; EvRead a 1 0 [gpinten c]; EvUnlock;
        EvWrite a [GPINTEN; en] 0])
      /\ same_registers (chip_put (chip_put c INTCON con) GPINTEN en) c') /\
  (exists c',
      run chip_bus (disable_interrupts self pins) c = (Done tt, c')
      /\ same_registers
           (chip_put c GPINTEN (Z.land (gpinten c) (Z.lnot pins))) c').
Proof.
  intros H Hok Hp a con en.
  destruct (chip_ok_bytes c Hok) as (_ & _ & _ & Hg & _ & Hi & _).
  assert (Econ : u8 (Z.land (u8 (intcon c)) (Z.lnot (u8 pins))) = con).
  { subst con. rewrite (byte_land_lnot _ _ Hi), (u8_small pins Hp).
    reflexivity. }
  assert (Een : u8 (Z.lor (u8 (gpinten c)) (u8 pins)) = en).
  { subst en. rewrite (byte_lor _ _ Hg), (u8_small pins Hp). reflexivity. }
  split.
  - unfold interrupt_on_changes.
    rewrite exec_bind, exec_read_register_chip by exact H.
    rewrite exec_bind, exec_write_register_chip by exact H.
    rewrite exec_bind, exec_read_register_chip by exact H.
    rewrite exec_write_register_chip by exact H.
    change (chip_get c (u8 INTCON)) with (intcon c).
    match goal with
    | |- context [chip_get ?x (u8 GPINTEN)] =>
        change (chip_get x (u8 GPINTEN)) with (gpinten c)
    end.
    rewrite !u8_idem, Econ, Een.
    eexists. split; [reflexivity|]. repeat split.
  - rewrite run_disable_interrupts_chip by exact H.
    rewrite (byte_land_lnot _ _ Hg), (u8_small pins Hp).
    eexists. split; [reflexivity|]. repeat split.
Qed.

Lemma interrupt_operations_frame_witness :
  let c := power_on 0 0 0 in
  exists c',
    exec chip_bus (interrupt_on_changes {| i2c_address := 0x40 |} 0x03) c =
    (Done tt, c',
     [EvLock; EvWrite 0x40 [INTCON] 0; EvRead 0x40 1 0 [0]; EvUnlock;
      EvWrite 0x40 [INTCON; Z.land 0 (Z.lnot 0x03)] 0;
      EvLock; EvWrite 0x40 [GPINTEN] 0; EvRead 0x40 1 0 [0]; EvUnlock;
      EvWrite 0x40 [GPINTEN; Z.lor 0 0x03] 0])
    /\ same_registers
         (chip_put (chip_put c INTCON (Z.land 0 (Z.lnot 0x03)))
                   GPINTEN (Z.lor 0 0x03)) c'.
Proof.
  intros c.
  apply (proj1 (interrupt_operations_frame
                  {| i2c_address := 0x40 |} c 0x03 eq_refl eq_refl
                  ltac:(unfold is_u8; lia))).
Defined.

(** ** Writing through handles *)

Lemma disjoint_pins (pin1 pin2 : Pin) :
  pin1 <> Pin_All -> pin2 <> Pin_All -> pin1 <> pin2 ->
  Z.land (Pin_value pin1) (Pin_value pin2) = 0.
Proof.
  intros H1 H2 Hne.
  destruct pin1, pin2; try contradiction; reflexivity.
Qed.

Lemma latch_after_two_writes (o p q : Z) (a b : bool) :
  is_u8 o -> is_u8 p -> is_u8 q ->
  Z.land p q = 0 ->
  let w x m (clear : bool) :=
    if clear then u8 (Z.land (u8 x) (Z.lnot m)) else u8 (Z.lor (u8 x) m) in
  let v := w (w o p a) q b in
  Z.land v p = (if a then 0 else p) /\
  Z.land v q = (if b then 0 else q) /\
  Z.land v (Z.lnot (Z.lor p q)) = Z.land o (Z.lnot (Z.lor p q)).
Proof.
  intros Ho Hp Hq Hd w v. subst v w. cbv beta.
  revert Hd. as_byte o Ho. as_byte p Hp. as_byte q Hq. intros Hd.
  assert (Hbit : forall n, 0 <= n ->
                   Z.testbit p n && (n <? 8) &&
                   (Z.testbit q n && (n <? 8)) = false).
  { intros n Hn. apply (f_equal (fun z => Z.testbit z n)) in Hd.
    rewrite Z.land_spec, Z.bits_0, !u8_testbit in Hd by exact Hn.
    exact Hd. }
  destruct a, b; (split; [|split]); apply Z.bits_inj'; intros n Hn;
    specialize (Hbit n Hn);
    repeat first
      [ rewrite Z.land_spec | rewrite Z.lor_spec | rewrite Z.bits_0
      | rewrite u8_testbit by exact Hn | rewrite Z.lnot_spec by exact Hn ];
    destruct (Z.testbit o n), (Z.testbit p n), (Z.testbit q n), (n <? 8);
    simpl in *; congruence.
Qed.

(** X10: writes through handles on two different pins, one after the other,
    do not disturb each other: afterwards each pin's latch bit holds the
    level written through its own handle, the other latch bits are as
    before, and no register but the output latch has changed; in particular
    a write never changes a pin's direction. *)
Theorem handle_writes_compose
        (self : MCP23008) (pin1 pin2 : Pin) (v1 v2 : Z) (c : Chip) :
  responds c (i2c_address self) = true ->
  chip_ok c = true ->
  pin1 <> Pin_All -> pin2 <> Pin_All -> pin1 <> pin2 ->
  let p1 := Pin_value pin1 in
  let p2 := Pin_value pin2 in
  exists c',
    run chip_bus (ExpandedIO.write (ExpandedIO.make self pin1) v1 ;;
                  ExpandedIO.write (ExpandedIO.make self pin2) v2) c =
    (Done tt, c')
    /\ Z.land (olat c') p1 = commanded pin1 v1
    /\ Z.land (olat c') p2 = commanded pin2 v2
    /\ Z.land (olat c') (Z.lnot (Z.lor p1 p2)) =
       Z.land (olat c) (Z.lnot (Z.lor p1 p2))
    /\ same_registers (chip_put c OLAT (olat c')) c'.
Proof.
  intros H Hok Hn1 Hn2 Hne p1 p2.
  destruct (chip_ok_bytes c Hok)
    as (_ & _ & _ & _ & _ & _ & _ & _ & _ & _ & Ho & _).
  pose proof (latch_after_two_writes
                (olat c) p1 p2 (v1 =? 0) (v2 =? 0) Ho
                (Pin_value_byte pin1) (Pin_value_byte pin2)
                (disjoint_pins pin1 pin2 Hn1 Hn2 Hne)) as Hl.
  cbv zeta beta in Hl.
  rewrite run_bind, (run_write_chip (ExpandedIO.make self pin1) v1 c H).
  cbn [ExpandedIO._pin ExpandedIO._parent]. fold p1.
  match goal with
  | |- context [run chip_bus _ ?c1] =>
      rewrite (run_write_chip (ExpandedIO.make self pin2) v2 c1 H)
  end.
  cbn [ExpandedIO._pin ExpandedIO._parent]. fold p2.
  eexists. split; [reflexivity|].
  cbn -[u8 Z.land Z.lor Z.lnot commanded same_registers chip_put p1 p2].
  unfold commanded. fold p1 p2.
  destruct Hl as (Hl1 & Hl2 & Hl3).
  split; [exact Hl1|]. split; [exact Hl2|]. split; [exact Hl3|].
  repeat split.
Qed.

Lemma handle_writes_compose_witness :
  let self := {| i2c_address := 0x40 |} in
  let c := power_on 0 0 0 in
  exists c',
    run chip_bus (ExpandedIO.write (ExpandedIO.make self Pin_GP0) 1 ;;
                  ExpandedIO.write (ExpandedIO.make self Pin_GP5) 0) c =
    (Done tt, c')
    /\ Z.land (olat c') 0x01 = 0x01
    /\ Z.land (olat c') 0x20 = 0
    /\ Z.land (olat c') (Z.lnot (Z.lor 0x01 0x20)) =
       Z.land 0 (Z.lnot (Z.lor 0x01 0x20))
    /\ same_registers (chip_put c OLAT (olat c')) c'.
Proof.
  intros self c.
  apply (handle_writes_compose self Pin_GP0 Pin_GP5 1 0 c);
    try reflexivity; discriminate.
Defined.

(** ** Reading an input pin *)

Lemma input_bit_shows_circuit (d l o e v p : Z) :
  is_u8 e -> is_u8 v -> is_u8 p ->
  Z.land
    (u8 (Z.lxor
           (u8 (Z.lor (Z.land o (Z.lnot (Z.lor (u8 (Z.lor (u8 d) (u8 p))) l)))
                      (Z.land e (Z.lor (u8 (Z.lor (u8 d) (u8 p))) l))))
           (u8 v)))
    p =
  Z.land (Z.lxor e v) p.
Proof.
  intros He Hv Hp. as_byte e He. as_byte v Hv. as_byte p Hp. bitwise.
Qed.

(** X11: a pin taken as an input reads the level the circuit puts on it,
    inverted when its polarity bit is set: after [as_input], then
    [set_input_polarity v], the handle's [read] returns
    [(level ^ v) & mask], whatever the output latch and the other pins'
    directions are. *)
Theorem input_read_follows_circuit
        (self : MCP23008) (pin : Pin) (v : Z) (c : Chip) :
  responds c (i2c_address self) = true ->
  chip_ok c = true ->
  is_u8 v ->
  exists c',
    run chip_bus (h <- as_input self pin ;;
                  set_input_polarity self v ;;
                  ExpandedInput.read h) c =
    (Done (Z.land (Z.lxor (ext c) v) (Pin_value pin)), c').
Proof.
  intros H Hok Hv.
  destruct (chip_ok_bytes c Hok)
    as (_ & _ & _ & _ & _ & _ & _ & _ & _ & _ & _ & He & _).
  unfold as_input, ExpandedInput.new, ExpandedIO.internal_input,
    ExpandedIO.input, ExpandedInput.read, ExpandedIO.internal_read,
    set_input_polarity.
  cbn [ExpandedIO._parent ExpandedIO._pin].
  rewrite !run_bind, run_set_input_pins_chip by exact H.
  unfold run at 1. cbn [exec fst].
  rewrite run_bind, run_write_register_chip by exact H.
  match goal with
  | |- context [run chip_bus (ExpandedIO.read ?h) ?c1] =>
      rewrite (run_read_chip h c1 H)
  end.
  cbn [ExpandedIO._pin].
  eexists. f_equal. f_equal.
  apply (input_bit_shows_circuit (iodir c) (load c) (olat c));
    [exact He|exact Hv|apply Pin_value_byte].
Qed.

Lemma input_read_follows_circuit_witness :
  exists c',
    run chip_bus (h <- as_input {| i2c_address := 0x40 |} Pin_GP1 ;;
                  set_input_polarity {| i2c_address := 0x40 |} 0x02 ;;
                  ExpandedInput.read h) (power_on 0 0x00 0) =
    (Done (Z.land (Z.lxor 0x00 0x02) 0x02), c').
Proof.
  apply (input_read_follows_circuit
           {| i2c_address := 0x40 |} Pin_GP1 0x02 (power_on 0 0x00 0)).
  - reflexivity.
  - reflexivity.
  - unfold is_u8. lia.
Defined.

(** ** PersistentVariable: the key *)

Lemma replace_nth_length {A : Type} (i : nat) (x : A) (l : list A) :
  List.length (replace_nth i x l) = List.length l.
Proof.
  revert i. induction l as [|y l IH]; intros i; simpl.
  - destruct i; reflexivity.
  - destruct i; simpl; [reflexivity|]. rewrite IH. reflexivity.
Qed.

Lemma replace_nth_middle {A : Type} (pre : list A) (x y : A) (post : list A) :
  replace_nth (List.length pre) y (pre ++ x :: post) = pre ++ y :: post.
Proof.
  induction pre as [|z pre IH]; simpl; [reflexivity|].
  rewrite IH. reflexivity.
Qed.

Lemma poke_end (buf : list ascii) (c : ascii) :
  poke buf (List.length buf) c = buf ++ [c].
Proof.
  unfold poke. rewrite Nat.ltb_irrefl, Nat.sub_diag. reflexivity.
Qed.

Lemma poke_middle (pre : list ascii) (x c : ascii) (post : list ascii) :
  poke (pre ++ x :: post) (List.length pre) c = pre ++ c :: post.
Proof.
  unfold poke.
  replace (Nat.ltb (List.length pre) (List.length (pre ++ x :: post)))
    with true.
  - apply replace_nth_middle.
  - symmetry. apply Nat.ltb_lt. rewrite length_app. simpl. lia.
Qed.

Lemma poke_length_inside (buf : list ascii) (i : nat) (c : ascii) :
  (i < List.length buf)%nat -> List.length (poke buf i c) = List.length buf.
Proof.
  intros H. unfold poke.
  replace (Nat.ltb i (List.length buf)) with true
    by (symmetry; apply Nat.ltb_lt; exact H).
  apply replace_nth_length.
Qed.

Lemma strcpy_at_end (src pre : list ascii) :
  strcpy pre (List.length pre) src = pre ++ src ++ [NUL].
Proof.
  revert pre. induction src as [|ch src IH]; intros pre; simpl.
  - apply poke_end.
  - rewrite poke_end.
    replace (S (List.length pre)) with (List.length (pre ++ [ch]))
      by (rewrite length_app; simpl; lia).
    rewrite IH, <- app_assoc. reflexivity.
Qed.

Lemma strcpy_over_terminator (src pre : list ascii) (x : ascii) :
  strcpy (pre ++ [x]) (List.length pre) src = pre ++ src ++ [NUL].
Proof.
  destruct src as [|ch src]; simpl.
  - apply poke_middle.
  - rewrite poke_middle.
    replace (S (List.length pre)) with (List.length (pre ++ [ch]))
      by (rewrite length_app; simpl; lia).
    rewrite strcpy_at_end, <- app_assoc. reflexivity.
Qed.

Lemma cstring_before_nul (s rest : list ascii) :
  ~ In NUL s -> cstring (s ++ NUL :: rest) = s.
Proof.
  induction s as [|ch s IH]; intros H; simpl.
  - reflexivity.
  - destruct (Ascii.eqb_spec ch NUL) as [E|_].
    + exfalso. apply H. left. exact E.
    + rewrite IH; [reflexivity|]. intros Hin. apply H. right. exact Hin.
Qed.

Lemma strrchr_absent (s : list ascii) (c : ascii) :
  ~ In c s -> strrchr s c = None.
Proof.
  induction s as [|x s IH]; intros H; simpl; [reflexivity|].
  rewrite IH by (intros Hin; apply H; right; exact Hin).
  destruct (Ascii.eqb_spec x c) as [E|_]; [|reflexivity].
  exfalso. apply H. left. exact E.
Qed.

Lemma strrchr_last (pre post : list ascii) (c : ascii) :
  ~ In c post -> strrchr (pre ++ c :: post) c = Some (List.length pre).
Proof.
  intros H. induction pre as [|x pre IH]; simpl.
  - rewrite (strrchr_absent post c H), Ascii.eqb_refl. reflexivity.
  - rewrite IH. reflexivity.
Qed.

Lemma strrchr_inside (s : list ascii) (c : ascii) (i : nat) :
  strrchr s c = Some i -> (i < List.length s)%nat.
Proof.
  revert i. induction s as [|x s IH]; intros i; simpl; [discriminate|].
  destruct (strrchr s c) as [j|].
  - intros E. inversion E. specialize (IH j eq_refl). lia.
  - destruct (Ascii.eqb x c); [|discriminate].
    intros E. inversion E. lia.
Qed.

Lemma cstring_length (buf : list ascii) :
  (List.length (cstring buf) <= List.length buf)%nat.
Proof.
  induction buf as [|ch buf IH]; simpl; [lia|].
  destruct (Ascii.eqb ch NUL); simpl; lia.
Qed.

Lemma key_memory_before_slash (pt rest : list ascii) :
  strcpy (strcpy [] 0 ("/"%char :: pt ++ ["/"%char]))
         (strlen ("/"%char :: pt ++ ["/"%char])) rest =
  ("/"%char :: pt ++ ["/"%char]) ++ rest ++ [NUL].
Proof.
  rewrite (strcpy_at_end _ []). simpl app at 1.
  apply (strcpy_over_terminator rest ("/"%char :: pt ++ ["/"%char]) NUL).
Qed.

(** X12: with COMPONENT_FLASHIAP, the key the constructor forms from
    ["/module/variable"] is the default partition name, the module path and
    the variable name joined by a dash: the first character of the given key
    is dropped, whatever it is, and the last slash of the whole is replaced.
    A key with no slash after its first character therefore loses the closing
    slash of the partition name instead. *)
Theorem constructed_key
        (pt : list ascii) (default_value : list Z)
        (c0 : ascii) (module variable : list ascii) :
  ~ In NUL pt -> ~ In NUL module -> ~ In NUL variable ->
  ~ In "/"%char variable ->
  PersistentVariable.new true pt default_value
    (c0 :: module ++ "/"%char :: variable) =
  Some (PersistentVariable.make default_value
          ("/"%char :: pt ++ "/"%char :: module ++ "-"%char :: variable))
  /\
  PersistentVariable.new true pt default_value (c0 :: variable) =
  Some (PersistentVariable.make default_value
          ("/"%char :: pt ++ "-"%char :: variable)).
Proof.
  intros Hpt Hm Hv Hs.
  assert (Hnul : NUL <> "/"%char /\ NUL <> "-"%char)
    by (split; discriminate).
  unfold PersistentVariable.new, PersistentVariable.key_memory,
    PersistentVariable.KV_STORE_DEFAULT_PARTITION_NAME.
  split.
  - rewrite key_memory_before_slash.
    assert (E : ("/"%char :: pt ++ ["/"%char]) ++
                (module ++ "/"%char :: variable) ++ [NUL] =
                (("/"%char :: pt ++ ["/"%char]) ++ module) ++
                "/"%char :: variable ++ [NUL]).
    { rewrite <- !app_assoc. simpl. rewrite <- !app_assoc. reflexivity. }
    rewrite E.
    assert (Ec : cstring ((("/"%char :: pt ++ ["/"%char]) ++ module) ++
                          "/"%char :: variable ++ [NUL]) =
                 (("/"%char :: pt ++ ["/"%char]) ++ module) ++
                 "/"%char :: variable).
    { replace ((("/"%char :: pt ++ ["/"%char]) ++ module) ++
               "/"%char :: variable ++ [NUL])
        with (((("/"%char :: pt ++ ["/"%char]) ++ module) ++
               "/"%char :: variable) ++ NUL :: [])
        by (rewrite <- !app_assoc; reflexivity).
      apply cstring_before_nul. intros Hin.
      rewrite !in_app_iff in Hin. simpl in Hin. rewrite in_app_iff in Hin.
      simpl in Hin. destruct Hnul. intuition congruence. }
    rewrite Ec, (strrchr_last _ _ _ Hs), poke_middle.
    replace ((("/"%char :: pt ++ ["/"%char]) ++ module) ++
             "-"%char :: variable ++ [NUL])
      with (((("/"%char :: pt ++ ["/"%char]) ++ module) ++
             "-"%char :: variable) ++ NUL :: [])
      by (rewrite <- !app_assoc; reflexivity).
    rewrite cstring_before_nul.
    + rewrite <- !app_assoc. simpl. rewrite <- !app_assoc. reflexivity.
    + intros Hin. rewrite !in_app_iff in Hin. simpl in Hin.
      rewrite in_app_iff in Hin. simpl in Hin. destruct Hnul.
      intuition congruence.
  - rewrite key_memory_before_slash.
    assert (E : ("/"%char :: pt ++ ["/"%char]) ++ variable ++ [NUL] =
                ("/"%char :: pt) ++ "/"%char :: variable ++ [NUL]).
    { simpl. rewrite <- app_assoc. reflexivity. }
    rewrite E.
    assert (Ec : cstring (("/"%char :: pt) ++
                          "/"%char :: variable ++ [NUL]) =
                 ("/"%char :: pt) ++ "/"%char :: variable).
    { replace (("/"%char :: pt) ++ "/"%char :: variable ++ [NUL])
        with ((("/"%char :: pt) ++ "/"%char :: variable) ++ NUL :: [])
        by (rewrite <- !app_assoc; reflexivity).
      apply cstring_before_nul. intros Hin.
      rewrite in_app_iff in Hin. simpl in Hin. destruct Hnul.
      intuition congruence. }
    rewrite Ec, (strrchr_last _ _ _ Hs), poke_middle.
    replace (("/"%char :: pt) ++ "-"%char :: variable ++ [NUL])
      with ((("/"%char :: pt) ++ "-"%char :: variable) ++ NUL :: [])
      by (rewrite <- !app_assoc; reflexivity).
    rewrite cstring_before_nul.
    + reflexivity.
    + intros Hin. rewrite in_app_iff in Hin. simpl in Hin. destruct Hnul.
      intuition congruence.
Qed.

Lemma constructed_key_witness :
  PersistentVariable.new true (list_ascii_of_string "kv") [0; 0; 0; 0]
    (list_ascii_of_string "/net/retries") =
  Some (PersistentVariable.make [0; 0; 0; 0]
          (list_ascii_of_string "/kv/net-retries"))
  /\
  PersistentVariable.new true (list_ascii_of_string "kv") [0; 0; 0; 0]
    (list_ascii_of_string "/retries") =
  Some (PersistentVariable.make [0; 0; 0; 0]
          (list_ascii_of_string "/kv-retries")).
Proof.
  apply (constructed_key (list_ascii_of_string "kv") [0; 0; 0; 0]
                         "/"%char (list_ascii_of_string "net")
                         (list_ascii_of_string "retries"));
    simpl; intuition discriminate.
Defined.

(** X13: for every non-empty key the constructor writes one [char] more than
    it allocates: [new char[(strlen(key)-1) + default_partition_len]] leaves
    no room for the terminator, so the NUL of the second [strcpy] lands in
    the cell just past the end of the array. *)
Theorem constructed_key_overruns_allocation
        (pt : list ascii) (key : list ascii) :
  key <> [] ->
  exists body,
    PersistentVariable.key_memory pt key = Some (body ++ [NUL])
    /\ List.length body = PersistentVariable.key_allocation pt key.
Proof.
  intros Hkey. destruct key as [|c0 rest]; [contradiction|].
  unfold PersistentVariable.key_memory, PersistentVariable.key_allocation,
    PersistentVariable.KV_STORE_DEFAULT_PARTITION_NAME.
  rewrite key_memory_before_slash.
  set (name := "/"%char :: pt ++ ["/"%char]).
  destruct (strrchr (cstring (name ++ rest ++ [NUL])) "/"%char)
    as [slash|] eqn:Hslash.
  - pose proof (strrchr_inside _ _ _ Hslash) as Hin.
    assert (Hc : cstring (name ++ rest ++ [NUL]) =
                 cstring ((name ++ rest) ++ [NUL]))
      by (rewrite <- app_assoc; reflexivity).
    assert (Hlen : (slash < List.length (name ++ rest))%nat).
    { clear Hslash. revert slash Hin.
      rewrite app_assoc.
      generalize (name ++ rest). intros l. induction l as [|x l IH];
        intros slash Hin; simpl in *.
      - lia.
      - destruct (Ascii.eqb x NUL); simpl in Hin; [lia|].
        destruct slash; [lia|]. specialize (IH slash). lia. }
    destruct (nth_split (name ++ rest) NUL Hlen) as (l1 & l2 & Hl & Hl1).
    exists (l1 ++ "-"%char :: l2). split.
    + f_equal. rewrite app_assoc, Hl, <- Hl1, <- app_assoc. simpl.
      rewrite poke_middle, <- app_assoc. reflexivity.
    + pose proof (f_equal (@List.length ascii) Hl) as HL.
      rewrite !length_app in HL. cbn [List.length] in HL.
      rewrite length_app. unfold strlen. cbn [List.length]. lia.
  - exfalso. subst name. simpl in Hslash.
    destruct (strrchr (cstring ((pt ++ ["/"%char]) ++ rest ++ [NUL]))
                      "/"%char); discriminate.
Qed.

Lemma constructed_key_overruns_allocation_witness :
  exists body,
    PersistentVariable.key_memory (list_ascii_of_string "kv")
                                  (list_ascii_of_string "/a/b") =
    Some (body ++ [NUL])
    /\ List.length body =
       PersistentVariable.key_allocation (list_ascii_of_string "kv")
                                         (list_ascii_of_string "/a/b").
Proof.
  apply (constructed_key_overruns_allocation
           (list_ascii_of_string "kv") (list_ascii_of_string "/a/b")).
  discriminate.
Defined.

(** ** PersistentVariable: talking to the store *)

(** X14: on every store, [set] keeps the new value in the object whatever
    the store answers, and with COMPONENT_FLASHIAP it talks to the store in
    one of three ways only: one [kv_set] that succeeds; a failed [kv_set]
    and a failed [kv_reset] of the default partition; or a failed [kv_set],
    a successful [kv_reset] of the default partition, and one more [kv_set],
    whose result is ignored.  Without COMPONENT_FLASHIAP the store is not
    touched. *)
Theorem set_store_discipline {S : Type} (T : KVStore S)
        (flash : bool) (pt : list ascii)
        (self : PersistentVariable.t) (v : list Z) (st : S) :
  let key := PersistentVariable._key self in
  let name := PersistentVariable.KV_STORE_DEFAULT_PARTITION_NAME pt in
  let r := kv_exec T (PersistentVariable.set flash pt self v) st in
  fst (fst r) = PersistentVariable.make v key /\
  if flash then
    snd r = [EvSet key v 0 0] \/
    (exists e1 e2,
        e1 <> 0 /\ e2 <> 0 /\
        snd r = [EvSet key v 0 e1; EvReset name e2]) \/
    (exists e1 e3,
        e1 <> 0 /\
        snd r = [EvSet key v 0 e1; EvReset name 0; EvSet key v 0 e3])
  else r = (PersistentVariable.make v key, st, []).
Proof.
  intros key name r. subst r. unfold PersistentVariable.set.
  destruct flash; [|split; reflexivity].
  cbn [PersistentVariable._key PersistentVariable._value kv_exec].
  fold key.
  destruct (store_set T key v 0 st) as [e1 s1].
  destruct (Z.eqb_spec e1 MBED_SUCCESS) as [E1|N1]; cbn [negb].
  - subst e1. simpl. split; [reflexivity|]. left. reflexivity.
  - unfold PersistentVariable.init_kvstore_partition.
    cbn [kv_bind kv_exec]. fold name.
    destruct (store_reset T name s1) as [e2 s2].
    destruct (Z.eqb_spec e2 MBED_SUCCESS) as [E2|N2]; cbn [negb kv_exec].
    + subst e2. destruct (store_set T key v 0 s2) as [e3 s3].
      simpl. split; [reflexivity|]. right. right.
      exists e1, e3. split; [exact N1|reflexivity].
    + simpl. split; [reflexivity|]. right. left.
      exists e1, e2. repeat split; assumption.
Qed.

Lemma received_whole (rx buf : list Z) :
  List.length rx = List.length buf ->
  received rx (List.length buf) buf = rx.
Proof.
  intros H. unfold received. rewrite <- H, firstn_all, H, skipn_all.
  apply app_nil_r.
Qed.

Lemma received_nothing (n : nat) (buf : list Z) : received [] n buf = buf.
Proof. unfold received. rewrite firstn_nil. reflexivity. Qed.

(** X15: on every store, [get] writes to the store only when the first
    [kv_get] reports MBED_ERROR_ITEM_NOT_FOUND: with any other code, success
    included, it performs that single read and returns the object's value
    overlaid with the bytes delivered; with that code the next call is a
    [kv_set] of the object's current value under the key.  Without
    COMPONENT_FLASHIAP it returns the object's value and leaves the store
    alone. *)
Theorem get_store_discipline {S : Type} (T : KVStore S)
        (flash : bool) (pt : list ascii) (nf : Z)
        (self : PersistentVariable.t) (st : S) :
  let key := PersistentVariable._key self in
  let value := PersistentVariable._value self in
  let n := List.length value in
  let r := kv_exec T (PersistentVariable.get flash pt nf self) st in
  if flash then
    let '(e, rx, st1) := store_get T key n st in
    if e =? nf then
      exists e1 rest,
        snd r = EvGet key n e rx :: EvSet key (received rx n value) 0 e1
                :: rest
    else
      r = ((received rx n value,
            PersistentVariable.make (received rx n value) key),
           st1, [EvGet key n e rx])
  else r = ((value, self), st, []).
Proof.
  intros key value n r. subst r. unfold PersistentVariable.get.
  destruct flash; [|reflexivity].
  unfold PersistentVariable.fetch. cbn [kv_bind kv_exec].
  fold key value n.
  destruct (store_get T key n st) as [[e rx] st1].
  destruct (e =? nf).
  - unfold PersistentVariable.set.
    cbn [PersistentVariable._key PersistentVariable._value kv_bind kv_exec].
    destruct (store_set T key (received rx n value) 0 st1) as [e1 s1].
    match goal with
    | |- context [kv_exec T ?p s1] =>
        destruct (kv_exec T p s1) as [[a s'] l]
    end.
    exists e1, l. reflexivity.
  - reflexivity.
Qed.

Lemma kv_exec_bind {S A B : Type} (T : KVStore S)
      (p : KvProg A) (f : A -> KvProg B) (s : S) :
  kv_exec T (kv_bind p f) s =
  let '(a, s1, l1) := kv_exec T p s in
  let '(b, s2, l2) := kv_exec T (f a) s1 in
  (b, s2, l1 ++ l2).
Proof.
  revert s. induction p as [a|key n k IH|key d fl k IH|pn k IH]; intros s;
    simpl.
  - destruct (kv_exec T (f a) s) as [[b s2] l2]. reflexivity.
  - destruct (store_get T key n s) as [[e rx] s0]. rewrite IH.
    destruct (kv_exec T (k e rx) s0) as [[a s1] l1].
    destruct (kv_exec T (f a) s1) as [[b s2] l2]. reflexivity.
  - destruct (store_set T key d fl s) as [e s0]. rewrite IH.
    destruct (kv_exec T (k e) s0) as [[a s1] l1].
    destruct (kv_exec T (f a) s1) as [[b s2] l2]. reflexivity.
  - destruct (store_reset T pn s) as [e s0]. rewrite IH.
    destruct (kv_exec T (k e) s0) as [[a s1] l1].
    destruct (kv_exec T (f a) s1) as [[b s2] l2]. reflexivity.
Qed.

Lemma shelf_find_first (key : list ascii) (d : list Z) (s : Shelf) :
  shelf_find key ((key, d) :: s) = Some d.
Proof.
  simpl. destruct (list_eq_dec ascii_dec key key); [reflexivity|].
  contradiction.
Qed.

Lemma get_shelf_hit (pt : list ascii) (nf : Z)
      (self : PersistentVariable.t) (st : Shelf) (d : list Z) :
  nf <> MBED_SUCCESS ->
  shelf_find (PersistentVariable._key self) st = Some d ->
  List.length d = List.length (PersistentVariable._value self) ->
  kv_exec (shelf_store nf) (PersistentVariable.get true pt nf self) st =
  ((d, PersistentVariable.make d (PersistentVariable._key self)), st,
   [EvGet (PersistentVariable._key self)
          (List.length (PersistentVariable._value self)) MBED_SUCCESS d]).
Proof.
  intros Hnf Hfind Hlen.
  unfold PersistentVariable.get, PersistentVariable.fetch.
  cbn [kv_bind kv_exec shelf_store store_get]. rewrite Hfind.
  replace (MBED_SUCCESS =? nf) with false
    by (symmetry; apply Z.eqb_neq; congruence).
  rewrite <- Hlen, firstn_all, Hlen, (received_whole d _ Hlen).
  reflexivity.
Qed.

(** X16: on a store that keeps what it is given, a value written with
    [set] is what [get] and the evaluation operator return afterwards,
    through the same object or through any other object with the same key
    and a value of the same size, whatever that object's default is. *)
Theorem stored_value_is_read_back
        (pt : list ascii) (nf : Z)
        (self other : PersistentVariable.t) (v : list Z) (st : Shelf) :
  nf <> MBED_SUCCESS ->
  PersistentVariable._key other = PersistentVariable._key self ->
  List.length v = List.length (PersistentVariable._value other) ->
  let T := shelf_store nf in
  let st1 := snd (fst (kv_exec T (PersistentVariable.set true pt self v) st)) in
  fst (fst (fst (kv_exec T (PersistentVariable.get true pt nf other) st1))) = v
  /\ fst (fst (fst (kv_exec T (PersistentVariable.eval true pt nf other)
                            st1))) = v.
Proof.
  intros Hnf Hkey Hlen T st1.
  assert (Est : st1 = (PersistentVariable._key self, v) :: st) by reflexivity.
  assert (Eget : kv_exec T (PersistentVariable.get true pt nf other) st1 =
                 ((v, PersistentVariable.make
                        v (PersistentVariable._key other)),
                  st1,
                  [EvGet (PersistentVariable._key other)
                         (List.length (PersistentVariable._value other))
                         MBED_SUCCESS v])).
  { apply get_shelf_hit; [exact Hnf| |exact Hlen].
    rewrite Est, Hkey. apply shelf_find_first. }
  split.
  - rewrite Eget. reflexivity.
  - unfold PersistentVariable.eval. rewrite kv_exec_bind, Eget.
    reflexivity.
Qed.

Lemma stored_value_is_read_back_witness :
  let key := list_ascii_of_string "/kv/net-retries" in
  let self := PersistentVariable.make [3; 0; 0; 0] key in
  let other := PersistentVariable.make [9; 9; 9; 9] key in
  let T := shelf_store (-1) in
  let st1 :=
    snd (fst (kv_exec T (PersistentVariable.set
                           true (list_ascii_of_string "kv")
                           self [7; 0; 0; 0]) [])) in
  fst (fst (fst (kv_exec T (PersistentVariable.get
                              true (list_ascii_of_string "kv") (-1) other)
                         st1))) = [7; 0; 0; 0]
  /\ fst (fst (fst (kv_exec T (PersistentVariable.eval
                                 true (list_ascii_of_string "kv") (-1) other)
                            st1))) = [7; 0; 0; 0].
Proof.
  intros key self other.
  apply (stored_value_is_read_back
           (list_ascii_of_string "kv") (-1) self other [7; 0; 0; 0] []).
  - discriminate.
  - reflexivity.
  - reflexivity.
Defined.

(** X17: on a store that keeps what it is given, the first [get] of a key
    the store does not hold returns the object's default and leaves that
    default stored under the key: one read that misses, one write of the
    default, one read that finds it. *)
Theorem first_get_stores_default
        (pt : list ascii) (nf : Z)
        (self : PersistentVariable.t) (st : Shelf) :
  nf <> MBED_SUCCESS ->
  shelf_find (PersistentVariable._key self) st = None ->
  let key := PersistentVariable._key self in
  let value := PersistentVariable._value self in
  let n := List.length value in
  kv_exec (shelf_store nf) (PersistentVariable.get true pt nf self) st =
  ((value, PersistentVariable.make value key),
   (key, value) :: st,
   [EvGet key n nf []; EvSet key value 0 MBED_SUCCESS;
    EvGet key n MBED_SUCCESS value]).
Proof.
  intros Hnf Hfind key value n. subst key value n.
  unfold PersistentVariable.get, PersistentVariable.fetch,
    PersistentVariable.set.
  cbn [kv_bind kv_exec shelf_store store_get store_set
       PersistentVariable._key PersistentVariable._value].
  rewrite Hfind, Z.eqb_refl, received_nothing.
  cbn [kv_bind kv_exec shelf_store store_get store_set
       PersistentVariable._key PersistentVariable._value].
  change (MBED_SUCCESS =? MBED_SUCCESS) with true.
  cbn [negb kv_bind kv_exec shelf_store store_get store_set
       PersistentVariable._key PersistentVariable._value].
  rewrite shelf_find_first, firstn_all.
  rewrite (received_whole _ _ eq_refl).
  reflexivity.
Qed.

Lemma first_get_stores_default_witness :
  let key := list_ascii_of_string "/kv/net-retries" in
  let self := PersistentVariable.make [3; 0; 0; 0] key in
  kv_exec (shelf_store (-1))
          (PersistentVariable.get true (list_ascii_of_string "kv") (-1) self)
          [] =
  (([3; 0; 0; 0], PersistentVariable.make [3; 0; 0; 0] key),
   [(key, [3; 0; 0; 0])],
   [EvGet key 4 (-1) []; EvSet key [3; 0; 0; 0] 0 MBED_SUCCESS;
    EvGet key 4 MBED_SUCCESS [3; 0; 0; 0]]).
Proof.
  intros key self.
  apply (first_get_stores_default (list_ascii_of_string "kv") (-1) self []).
  - discriminate.
  - reflexivity.
Defined.
